(** * Event streams of the KES client (log.go)

    A shallow embedding of [ErrorStream] and [AuditStream]: pull iterators
    over a stream of JSON records, with a sticky error, an idempotent close
    and a relay operation ([WriteTo]) that re-encodes every record into a
    sink through a [countWriter].

    The Go standard library pieces the code calls ([encoding/json], [io],
    [errors]) are modelled at the level the code observes them: a decoder
    hands out one record per call, a writer reports how many bytes it took,
    a closer reports an error or nil. *)

From Stdlib Require Import String Ascii Strings.Byte List ZArith Bool Arith Lia.
From Equations Require Import Equations.
Import ListNotations.

Set Implicit Arguments.
#[local] Set Warnings "-register-all".

(** ** Go values the code handles *)

(** Go [error] values.  A nil [error] is [None : option error]. *)
Inductive error : Type :=
| io_EOF
| io_ErrUnexpectedEOF
| SyntaxError (msg : string)
| UnmarshalTypeError (value : string) (field : string)
| ParseError (kind : string) (text : string)
| errorString (msg : string)
| wrapError (msg : string) (inner : error).

Fixpoint error_eqb (a b : error) : bool :=
  match a, b with
  | io_EOF, io_EOF => true
  | io_ErrUnexpectedEOF, io_ErrUnexpectedEOF => true
  | SyntaxError m, SyntaxError m' => String.eqb m m'
  | UnmarshalTypeError v f, UnmarshalTypeError v' f' =>
      String.eqb v v' && String.eqb f f'
  | ParseError k t, ParseError k' t' => String.eqb k k' && String.eqb t t'
  | errorString m, errorString m' => String.eqb m m'
  | wrapError m i, wrapError m' i' => String.eqb m m' && error_eqb i i'
  | _, _ => false
  end.

(** [errors.Is(err, target)]: [err] or an error it wraps equals [target]. *)
Fixpoint errors_Is (e target : error) : bool :=
  error_eqb e target ||
  match e with
  | wrapError _ inner => errors_Is inner target
  | _ => false
  end.

(** [x != nil] on an [error]. *)
Definition not_nil (e : option error) : bool :=
  match e with Some _ => true | None => false end.

(** A JSON value as [encoding/json] scans it.  A number keeps its literal,
    as the decoder converts it only once the target type is known. *)
Inductive json : Type :=
| JNull
| JBool (b : bool)
| JNumber (lit : string)
| JString (s : string)
| JArray (items : list json)
| JObject (members : list (string * json)).

(** What the next [Decode] call finds on the wire. *)
Inductive chunk : Type :=
| Doc (v : json)      (* one complete JSON value *)
| Broken (e : error). (* bytes that do not scan, or a failing read *)

(** [json.Decoder] over the input: the values not yet handed out, and how
    many times [Decode] has been called (the reads the stream caused). *)
Record Decoder : Type := { pending : list chunk; decodes : nat }.

Definition json_NewDecoder (wire : list chunk) : Decoder :=
  {| pending := wire; decodes := 0 |}.

(** [io.Closer]: what its [Close] returns, and how often it was called. *)
Record Closer : Type := { close_err : option error; close_calls : nat }.

Definition Closer_Close (c : Closer) : option error * Closer :=
  (close_err c, {| close_err := close_err c; close_calls := S (close_calls c) |}).

(** The [io.Reader] handed to [NewErrorStream] / [NewAuditStream]: the wire
    content, and the reader seen as an [io.Closer] when it is one.  Closing
    does not take away what is still on the wire: what a closed reader
    hands out is the reader's business, not the stream's. *)
Record Reader : Type := { wire : list chunk; as_Closer : option Closer }.

(** [io.Writer]: [Write p] reports the bytes taken and an error or nil. *)
Class Writer (W : Type) : Type :=
  Write : W -> list byte -> (Z * option error) * W.

(** Go's [int64]: two's complement on 64 bits. *)
Definition wrap64 (z : Z) : Z := ((z + 2 ^ 63) mod 2 ^ 64 - 2 ^ 63)%Z.

(** ** countWriter *)

(** [countWriter{W, N}]. *)
Record countWriter (W : Type) : Type := { cw_W : W; cw_N : Z }.

(** [countWriter.Write]. *)
Definition countWriter_Write {W} `{Writer W} (w : countWriter W) (p : list byte)
  : (Z * option error) * countWriter W :=
  let '((n, err), inner) := Write (cw_W w) p in
  ((n, err), {| cw_W := inner; cw_N := wrap64 (cw_N w + wrap64 n) |}).

#[export] Instance countWriter_Writer {W} `{Writer W} : Writer (countWriter W) :=
  countWriter_Write.

(** ** The stream *)

(** [ErrorStream] and [AuditStream] have the same five fields and differ
    in the event type only. *)
Record Stream (Event : Type) : Type := {
  decoder : Decoder;
  closer : option Closer;
  event : Event;
  err : option error;
  closed : bool
}.

Section Fields.
Context {Event : Type}.

Definition set_decoder (d : Decoder) (s : Stream Event) : Stream Event :=
  {| decoder := d; closer := closer s; event := event s; err := err s;
     closed := closed s |}.

Definition set_closer (c : option Closer) (s : Stream Event) : Stream Event :=
  {| decoder := decoder s; closer := c; event := event s; err := err s;
     closed := closed s |}.

Definition set_event (e : Event) (s : Stream Event) : Stream Event :=
  {| decoder := decoder s; closer := closer s; event := e; err := err s;
     closed := closed s |}.

Definition set_err (e : option error) (s : Stream Event) : Stream Event :=
  {| decoder := decoder s; closer := closer s; event := event s; err := e;
     closed := closed s |}.

Definition set_closed (b : bool) (s : Stream Event) : Stream Event :=
  {| decoder := decoder s; closer := closer s; event := event s; err := err s;
     closed := b |}.

(** [Event()]. *)
Definition Event_ (s : Stream Event) : Event := event s.

(** [Close()], the same text for both stream types. *)
Definition Close (s : Stream Event) : option error * Stream Event :=
  if negb (closed s) then
    let s := set_closed true s in
    match closer s with
    | Some c =>
        let '(e, c') := Closer_Close c in
        let s := set_closer (Some c') s in
        let s := if negb (not_nil (err s)) then set_err e s else s in
        (e, s)
    | None => (err s, s)
    end
  else (err s, s).

End Fields.

Section Generic.
Context {Response Event : Type}.
(** [json.Unmarshal] into a zero [Response], and [json.Marshal] of one. *)
Variable Unmarshal : json -> error + Response.
Variable Marshal : Response -> error + list byte.
(** The conversion from the decoded [Response] to the stored event. *)
Variable toEvent : Response -> Event.
(** The zero value of the event type. *)
Variable zeroEvent : Event.

(** [json.Decoder.Decode(&resp)] with [resp] a zero [Response].  End of
    input is [io.EOF], and stays so.  A value that scans is consumed even
    when it does not fit [Response]; bytes that do not scan are never
    consumed and the decoder repeats their error. *)
Definition Decode (d : Decoder) : (error + Response) * Decoder :=
  match pending d with
  | [] => (inl io_EOF, {| pending := []; decodes := S (decodes d) |})
  | Doc v :: rest => (Unmarshal v, {| pending := rest; decodes := S (decodes d) |})
  | Broken e :: rest =>
      (inl e, {| pending := Broken e :: rest; decodes := S (decodes d) |})
  end.

(** [NewErrorStream] / [NewAuditStream]. *)
Definition NewStream (r : Reader) : Stream Event :=
  {| decoder := json_NewDecoder (wire r);
     closer := as_Closer r;
     event := zeroEvent;
     err := None;
     closed := false |}.

(** [Next()].  [ErrorStream.Next] tests [s.err != nil || s.closed] and
    [AuditStream.Next] tests [s.closed || s.err != nil]; neither operand
    has an effect. *)
Definition Next (s : Stream Event) : bool * Stream Event :=
  if not_nil (err s) || closed s then (false, s)
  else
    let '(res, d) := Decode (decoder s) in
    let s := set_decoder d s in
    match res with
    | inl e =>
        if errors_Is e io_EOF then
          let '(ce, s) := Close s in
          (false, set_err ce s)
        else (false, set_err (Some e) s)
    | inr resp => (true, set_event (toEvent resp) s)
    end.

(** [json.Encoder.Encode(resp)]: marshal, append a newline, one [Write]. *)
Definition Encode {W} `{Writer W} (w : W) (resp : Response) : option error * W :=
  match Marshal resp with
  | inl e => (Some e, w)
  | inr b =>
      let '((_, err), w') := Write w (b ++ ["010"%byte]) in
      (err, w')
  end.

Definition inspect {A} (a : A) : {b : A | a = b} := exist _ a eq_refl.

(** The [for] loop of [WriteTo].  Each turn that goes round again has
    consumed one pending value. *)
Equations? WriteTo_loop {W} `{Writer W} (s : Stream Event) (cw : countWriter W)
  : (Z * option error) * (Stream Event * W)
  by wf (length (pending (decoder s))) lt :=
WriteTo_loop s cw with inspect (Decode (decoder s)) := {
  | exist _ (inl e, d) _ =>
      if errors_Is e io_EOF then
        let '(ce, s') := Close (set_decoder d s) in
        ((cw_N cw, ce), (set_err ce s', cw_W cw))
      else ((cw_N cw, Some e), (set_err (Some e) (set_decoder d s), cw_W cw))
  | exist _ (inr resp, d) Hd with Encode cw resp => {
      | (Some e, cw') =>
          ((cw_N cw', Some e), (set_err (Some e) (set_decoder d s), cw_W cw'))
      | (None, cw') => WriteTo_loop (set_decoder d s) cw' } }.
Proof.
  simpl. unfold Decode in Hd.
  destruct (pending (decoder s)) as [|[v|e] rest]; try discriminate.
  injection Hd as _ <-. simpl. lia.
Qed.

(** [WriteTo(w)]: the byte count, the error, the stream and the sink. *)
Definition WriteTo {W} `{Writer W} (s : Stream Event) (w : W)
  : (Z * option error) * (Stream Event * W) :=
  WriteTo_loop s {| cw_W := w; cw_N := 0 |}.

(** Calling [Next] until it returns false, as a caller's
    [for s.Next() { }] does.  Each successful call has consumed one pending
    value. *)
Equations? Next_until_false (s : Stream Event) : Stream Event
  by wf (length (pending (decoder s))) lt :=
Next_until_false s with inspect (Next s) := {
  | exist _ (true, s') Hn => Next_until_false s'
  | exist _ (false, s') _ => s' }.
Proof.
  unfold Next in Hn.
  destruct (not_nil (err s) || closed s); try discriminate.
  unfold Decode in Hn.
  destruct (pending (decoder s)) as [|[v|e] rest]; simpl in Hn.
  - destruct (Close _); discriminate.
  - destruct (Unmarshal v) as [e|resp].
    + destruct (errors_Is e io_EOF); [destruct (Close _)|]; discriminate.
    + injection Hn as <-. simpl. lia.
  - destruct (errors_Is e io_EOF); [destruct (Close _)|]; discriminate.
Qed.

(** [n] calls of [Next] in a row: what each returned and what [Event()]
    gave right after it. *)
Fixpoint run_Next (n : nat) (s : Stream Event)
  : list (bool * Event) * Stream Event :=
  match n with
  | O => ([], s)
  | S n' =>
      let '(ok, s1) := Next s in
      let '(rest, s2) := run_Next n' s1 in
      ((ok, Event_ s1) :: rest, s2)
  end.

(** What [Decode] reports for a chunk that is not a record. *)
Definition malformed (c : chunk) : option error :=
  match c with
  | Doc v =>
      match Unmarshal v with
      | inl e => Some e
      | inr _ => None
      end
  | Broken e => Some e
  end.

(** The calls a caller can make on a stream, and a sequence of them. *)
Inductive call (W : Type) : Type :=
| CallNext
| CallClose
| CallWriteTo (w : W).

Definition perform {W} `{Writer W} (s : Stream Event) (c : call W)
  : Stream Event :=
  match c with
  | CallNext _ => snd (Next s)
  | CallClose _ => snd (Close s)
  | CallWriteTo w => fst (snd (WriteTo s w))
  end.

Definition perform_all {W} `{Writer W} (cs : list (call W)) (s : Stream Event)
  : Stream Event :=
  fold_left perform cs s.

Definition writes {W} (c : call W) : bool :=
  match c with
  | CallWriteTo _ => true
  | _ => false
  end.

(** No error so far, and none to come: the records left all decode and
    the close, if there is one, succeeds. *)
Definition flawless (s : Stream Event) : Prop :=
  err s = None
  /\ (forall k, closer s = Some k -> close_err k = None)
  /\ exists docs rs,
       pending (decoder s) = map Doc docs /\ map Unmarshal docs = map inr rs.

End Generic.

(** Modelled from the spec: [Err()], the error query of section 4.1.  log.go
    keeps the sticky error in the field [err] and declares no method that
    only reads it; the model is that read. *)
Definition Err {Event} (s : Stream Event) : option error := err s.

(** How often the underlying resource has been closed. *)
Definition closes {Event} (s : Stream Event) : nat :=
  match closer s with
  | Some c => close_calls c
  | None => 0
  end.

(** The closer has been called at most once more than when the stream was
    made, and not at all while the stream is not closed. *)
Definition closed_once {Event} (n0 : nat) (s : Stream Event) : Prop :=
  closes s <= S n0 /\ (closed s = false -> closes s = n0)
  /\ (closer s = None -> closes s = n0).

(** A sink that takes every write in full. *)
Definition accepts_all (W : Type) `{Writer W} : Prop :=
  forall (w : W) (p : list byte), fst (Write w p) = (Z.of_nat (length p), None).

Arguments accepts_all W {_}.

(** The bytes [Encode] hands to the sink for a marshalled record. *)
Definition encoded_size (b : list byte) : nat := length b + 1.

(** ** Storing JSON values into Go fields

    The rules of [encoding/json] for the field types of the two [Response]
    structs.  A value of the wrong JSON kind is a type mismatch: the decoder
    remembers the first one ([savedError]), goes on with the other members
    and reports it at the end.  An error returned by an unmarshalling method
    of the field's type ends the decoding at once.  [null] leaves a field as
    it is, except for a slice, which it sets to nil. *)

Definition saveError (saved : option error) (e : error) : option error :=
  match saved with
  | Some _ => saved
  | None => Some e
  end.

Definition kind_of (v : json) : string :=
  match v with
  | JNull => "null"
  | JBool _ => "bool"
  | JNumber _ => "number"
  | JString _ => "string"
  | JArray _ => "array"
  | JObject _ => "object"
  end.

(** The outcome of storing into a field of type [T]: an error that ends
    the decoding, or the field and the saved error. *)
Definition stored (T : Type) : Type := error + (T * option error).

Definition mismatch {T} (field : string) (v : json) (cur : T)
  (saved : option error) : stored T :=
  inr (cur, saveError saved (UnmarshalTypeError (kind_of v) field)).

Definition digit (c : ascii) : option Z :=
  let n := nat_of_ascii c in
  if (48 <=? n)%nat && (n <=? 57)%nat then Some (Z.of_nat (n - 48)) else None.

Fixpoint digits (acc : Z) (cs : list ascii) : option Z :=
  match cs with
  | [] => Some acc
  | c :: rest =>
      match digit c with
      | Some d => digits (acc * 10 + d) rest
      | None => None
      end
  end.

(** [strconv.ParseInt(lit, 10, 64)]: an optional sign, decimal digits, and
    a value in the range of [int64]. *)
Definition ParseInt64 (lit : string) : option Z :=
  let signed :=
    match list_ascii_of_string lit with
    | "-"%char :: ((_ :: _) as cs) => option_map Z.opp (digits 0 cs)
    | "+"%char :: ((_ :: _) as cs) => digits 0 cs
    | (_ :: _) as cs => digits 0 cs
    | [] => None
    end in
  match signed with
  | Some n => if ((- 2 ^ 63 <=? n) && (n <? 2 ^ 63))%Z then Some n else None
  | None => None
  end.

(** A Go [string] field (also a named string type such as [Identity]). *)
Definition store_string (field : string) (v : json) (cur : string)
  (saved : option error) : stored string :=
  match v with
  | JString s => inr (s, saved)
  | JNull => inr (cur, saved)
  | _ => mismatch field v cur saved
  end.

(** A Go [int] or [int64] field (also [time.Duration], an [int64] with no
    unmarshalling method of its own). *)
Definition store_int64 (field : string) (v : json) (cur : Z)
  (saved : option error) : stored Z :=
  match v with
  | JNumber lit =>
      match ParseInt64 lit with
      | Some n => inr (n, saved)
      | None =>
          inr (cur, saveError saved (UnmarshalTypeError ("number " ++ lit) field))
      end
  | JNull => inr (cur, saved)
  | _ => mismatch field v cur saved
  end.

(** The members of a JSON object, in wire order, stored one by one. *)
Fixpoint store_members {T} (member : string -> json -> T -> option error -> stored T)
  (ms : list (string * json)) (cur : T) (saved : option error) : stored T :=
  match ms with
  | [] => inr (cur, saved)
  | (key, v) :: rest =>
      match member key v cur saved with
      | inl e => inl e
      | inr (cur', saved') => store_members member rest cur' saved'
      end
  end.

(** A Go struct field. *)
Definition store_struct {T} (field : string)
  (member : string -> json -> T -> option error -> stored T)
  (v : json) (cur : T) (saved : option error) : stored T :=
  match v with
  | JObject ms => store_members member ms cur saved
  | JNull => inr (cur, saved)
  | _ => mismatch field v cur saved
  end.

(** [json.Unmarshal] into a struct that starts as [zero]. *)
Definition unmarshal_struct {T} (member : string -> json -> T -> option error -> stored T)
  (zero : T) (v : json) : error + T :=
  match store_struct EmptyString member v zero None with
  | inl e => inl e
  | inr (_, Some e) => inl e
  | inr (r, None) => inr r
  end.

Definition upper (c : ascii) : ascii :=
  let n := nat_of_ascii c in
  if (97 <=? n)%nat && (n <=? 122)%nat then ascii_of_nat (n - 32) else c.

(** [foldName] of [encoding/json], on the UTF-8 bytes of a key: ASCII
    letters go to upper case, and so do the two letters outside ASCII that
    fold to an ASCII one, the long s (U+017F, bytes 197 191) to S and the
    Kelvin sign (U+212A, bytes 226 132 170) to K.  Other bytes are kept: no
    other character folds to an ASCII one, and the field names of the two
    [Response] structs are ASCII. *)
Fixpoint fold_name (cs : list ascii) : list ascii :=
  match cs with
  | [] => []
  | "197"%char :: "191"%char :: rest => "S"%char :: fold_name rest
  | "226"%char :: "132"%char :: "170"%char :: rest =>
      "K"%char :: fold_name rest
  | c :: rest => upper c :: fold_name rest
  end.

(** A JSON key names a struct field when the two fold to the same name. *)
Definition names (key tag : string) : bool :=
  String.eqb (string_of_list_ascii (fold_name (list_ascii_of_string key)))
             (string_of_list_ascii (fold_name (list_ascii_of_string tag))).

(** ** Writers used by the examples *)

(** A sink that takes every byte, like [bytes.Buffer]. *)
Record Buffer : Type := { buf : list byte }.

#[export] Instance Buffer_Writer : Writer Buffer :=
  fun w p => ((Z.of_nat (length p), None), {| buf := buf w ++ p |}).

(** A sink with room for [room] more bytes: a write that does not fit is
    cut short and reports [full]. *)
Record LimitedWriter : Type := { room : nat; taken : list byte; full : error }.

#[export] Instance LimitedWriter_Writer : Writer LimitedWriter :=
  fun w p =>
    if (length p <=? room w)%nat then
      ((Z.of_nat (length p), None),
       {| room := room w - length p; taken := taken w ++ p; full := full w |})
    else
      ((Z.of_nat (room w), Some (full w)),
       {| room := 0; taken := taken w ++ firstn (room w) p; full := full w |}).

(** [stored] is a functor: put the stored field back into its struct. *)
Definition into {A T} (r : stored A) (put : A -> T) : stored T :=
  match r with
  | inl e => inl e
  | inr (a, saved) => inr (put a, saved)
  end.

(** ** ErrorStream *)

(** [ErrorEvent]. *)
Record ErrorEvent : Type := { Message : string }.

Definition hex_digit (n : nat) : ascii :=
  if (n <? 10)%nat then ascii_of_nat (48 + n) else ascii_of_nat (87 + n).

(** The bytes [encoding/json] writes for one ASCII character of a string,
    with the HTML escaping an [Encoder] applies by default (backspace and
    form feed in the short forms Go writes since 1.22). *)
Definition escape (c : ascii) : list ascii :=
  let n := nat_of_ascii c in
  let backslash := "\"%char in
  if (n =? 34)%nat || (n =? 92)%nat then [backslash; c]
  else if (n =? 8)%nat then [backslash; "b"%char]
  else if (n =? 12)%nat then [backslash; "f"%char]
  else if (n =? 10)%nat then [backslash; "n"%char]
  else if (n =? 13)%nat then [backslash; "r"%char]
  else if (n =? 9)%nat then [backslash; "t"%char]
  else if (n <? 32)%nat || (n =? 60)%nat || (n =? 62)%nat || (n =? 38)%nat then
    [backslash; "u"%char; "0"%char; "0"%char;
     hex_digit (n / 16); hex_digit (n mod 16)]
  else [c].

Definition between (lo hi : nat) (c : ascii) : bool :=
  ((lo <=? nat_of_ascii c) && (nat_of_ascii c <=? hi))%nat.

(** The length of the UTF-8 sequence at the head of [cs], as
    [utf8.DecodeRune] reads it; 0 when the bytes there are not one. *)
Definition rune_length (cs : list ascii) : nat :=
  match cs with
  | [] => 0
  | c1 :: rest =>
      if between 0 127 c1 then 1
      else
        match rest with
        | [] => 0
        | c2 :: rest2 =>
            if between 194 223 c1 && between 128 191 c2 then 2
            else
              match rest2 with
              | [] => 0
              | c3 :: rest3 =>
                  if (between 224 224 c1 && between 160 191 c2
                      || between 225 236 c1 && between 128 191 c2
                      || between 237 237 c1 && between 128 159 c2
                      || between 238 239 c1 && between 128 191 c2)
                     && between 128 191 c3 then 3
                  else
                    match rest3 with
                    | [] => 0
                    | c4 :: _ =>
                        if (between 240 240 c1 && between 144 191 c2
                            || between 241 243 c1 && between 128 191 c2
                            || between 244 244 c1 && between 128 143 c2)
                           && between 128 191 c3 && between 128 191 c4
                        then 4 else 0
                    end
              end
        end
  end.

(** The content of a JSON string as [encoding/json] writes it: ASCII by
    [escape]; a byte that starts no UTF-8 sequence as the replacement
    character, escaped; the line and paragraph separators U+2028 and U+2029
    escaped; every other character as it is. *)
Fixpoint escape_all (cs : list ascii) : list ascii :=
  let backslash := "\"%char in
  match cs with
  | [] => []
  | c1 :: rest =>
      match rune_length cs, rest with
      | 1, _ => escape c1 ++ escape_all rest
      | 2, c2 :: rest2 => c1 :: c2 :: escape_all rest2
      | 3, c2 :: c3 :: rest3 =>
          (if between 226 226 c1 && between 128 128 c2 && between 168 169 c3
           then [backslash; "u"%char; "2"%char; "0"%char; "2"%char;
                 hex_digit (nat_of_ascii c3 - 160)]
           else [c1; c2; c3])
          ++ escape_all rest3
      | 4, c2 :: c3 :: c4 :: rest4 =>
          c1 :: c2 :: c3 :: c4 :: escape_all rest4
      | _, _ =>
          [backslash; "u"%char; "f"%char; "f"%char; "f"%char; "d"%char]
          ++ escape_all rest
      end
  end.

Definition quote (s : string) : list ascii :=
  "034"%char :: escape_all (list_ascii_of_string s) ++ ["034"%char].

Module ErrorStream.

(** The [Response] struct of [Next] and [WriteTo]. *)
Record Response : Type := { resp_Message : string }.

Definition zeroResponse : Response := {| resp_Message := EmptyString |}.

Definition member (key : string) (v : json) (cur : Response)
  (saved : option error) : stored Response :=
  if names key "message" then
    into (store_string "message" v (resp_Message cur) saved)
         (fun m => {| resp_Message := m |})
  else inr (cur, saved).

Definition Unmarshal : json -> error + Response :=
  unmarshal_struct member zeroResponse.

(** The JSON text of a [Response]. *)
Definition encoding (resp : Response) : list byte :=
  map byte_of_ascii
    (list_ascii_of_string "{" ++ quote "message" ++ [":"%char]
     ++ quote (resp_Message resp) ++ list_ascii_of_string "}").

(** [json.Marshal] of a [Response]: a struct of one string always encodes. *)
Definition Marshal (resp : Response) : error + list byte :=
  inr (encoding resp).

(** [ErrorEvent(resp)]. *)
Definition toEvent (resp : Response) : ErrorEvent :=
  {| Message := resp_Message resp |}.

Definition zeroEvent : ErrorEvent := {| Message := EmptyString |}.

Definition Event (s : Stream ErrorEvent) : ErrorEvent := Event_ s.

(** [Message()]. *)
Definition Message_ (s : Stream ErrorEvent) : string := Message (event s).

Definition Next : Stream ErrorEvent -> bool * Stream ErrorEvent :=
  Next Unmarshal toEvent.

Definition WriteTo {W} `{Writer W}
  : Stream ErrorEvent -> W -> (Z * option error) * (Stream ErrorEvent * W) :=
  WriteTo Unmarshal Marshal.

Definition Close : Stream ErrorEvent -> option error * Stream ErrorEvent :=
  Close.

End ErrorStream.

Definition NewErrorStream (r : Reader) : Stream ErrorEvent :=
  NewStream ErrorStream.zeroEvent r.

(** ** AuditStream *)

(** Modelled from the spec: [Identity] is declared elsewhere in the package;
    the wire contract gives it as a string. *)
Definition Identity : Type := string.

(** [time.Duration]: an [int64] count of nanoseconds. *)
Definition Duration : Type := Z.

(** [net.IP]: a byte slice, nil when empty. *)
Definition IP : Type := list byte.

(** [time.Time], as the civil date and time read from the wire, the
    nanoseconds and the zone offset in seconds east of UTC. *)
Record Time : Type := {
  year : Z; month : Z; day : Z;
  hour : Z; minute : Z; second : Z;
  nanosecond : Z; offset : Z
}.

Definition zeroTime : Time :=
  {| year := 1%Z; month := 1%Z; day := 1%Z; hour := 0%Z; minute := 0%Z;
     second := 0%Z; nanosecond := 0%Z; offset := 0%Z |}.

(** [AuditEvent]. *)
Record AuditEvent : Type := {
  Timestamp : Time;
  APIPath : string;
  ClientIP : IP;
  ClientIdentity : Identity;
  StatusCode : Z;
  ResponseTime : Duration
}.

Definition number (lo hi : Z) (cs : list ascii) : option Z :=
  match digits 0 cs with
  | Some n => if ((lo <=? n) && (n <=? hi))%Z then Some n else None
  | None => None
  end.

Definition leap (y : Z) : bool :=
  ((y mod 4 =? 0) && (negb (y mod 100 =? 0) || (y mod 400 =? 0)))%Z.

Definition daysIn (m y : Z) : Z :=
  if (m =? 2)%Z then (if leap y then 29 else 28)%Z
  else if ((m =? 4) || (m =? 6) || (m =? 9) || (m =? 11))%Z then 30%Z
  else 31%Z.

(** The digits of a fractional second: nanoseconds, further digits cut. *)
Fixpoint fraction (scale acc : Z) (cs : list ascii) : Z * list ascii :=
  match cs with
  | c :: rest =>
      match digit c with
      | Some d => fraction (scale / 10) (acc + d * scale) rest
      | None => (acc, cs)
      end
  | [] => (acc, [])
  end.

Definition zone (cs : list ascii) : option Z :=
  match cs with
  | ["Z"%char] => Some 0%Z
  | [sign; h1; h2; ":"%char; m1; m2] =>
      match number 0 23 [h1; h2], number 0 59 [m1; m2] with
      | Some h, Some m =>
          if Ascii.eqb sign "+"%char then Some ((h * 60 + m) * 60)%Z
          else if Ascii.eqb sign "-"%char then Some (- ((h * 60 + m) * 60))%Z
          else None
      | _, _ => None
      end
  | _ => None
  end.

(** The RFC 3339 reading [time.Time.UnmarshalJSON] applies to the content
    of a JSON string.  The near-misses of RFC 3339 that Go's general layout
    parser lets through are refused here: a timestamp read here is read by
    Go, one refused here may not be. *)
Definition ParseRFC3339 (s : string) : option Time :=
  match list_ascii_of_string s with
  | y1 :: y2 :: y3 :: y4 :: "-"%char :: mo1 :: mo2 :: "-"%char :: d1 :: d2
    :: "T"%char :: h1 :: h2 :: ":"%char :: mi1 :: mi2 :: ":"%char :: s1 :: s2
    :: rest =>
      match number 0 9999 [y1; y2; y3; y4], number 1 12 [mo1; mo2] with
      | Some y, Some mo =>
          match number 1 (daysIn mo y) [d1; d2], number 0 23 [h1; h2],
                number 0 59 [mi1; mi2], number 0 59 [s1; s2] with
          | Some d, Some h, Some mi, Some sec =>
              let '(ns, rest) :=
                match rest with
                | "."%char :: ((c :: _) as frac) =>
                    match digit c with
                    | Some _ => fraction 100000000 0 frac
                    | None => (0%Z, rest)
                    end
                | _ => (0%Z, rest)
                end in
              match zone rest with
              | Some off =>
                  Some {| year := y; month := mo; day := d; hour := h;
                          minute := mi; second := sec; nanosecond := ns;
                          offset := off |}
              | None => None
              end
          | _, _, _, _ => None
          end
      | _, _ => None
      end
  | _ => None
  end.

Definition byte_of_Z (n : Z) : byte :=
  match Byte.of_N (Z.to_N n) with
  | Some b => b
  | None => "000"%byte
  end.

(** One field of a dotted-quad address: up to three digits, at most 255,
    no leading zero. *)
Definition octet (cs : list ascii) : option Z :=
  match cs with
  | [] => None
  | "0"%char :: _ :: _ => None
  | _ => if (length cs <=? 3)%nat then number 0 255 cs else None
  end.

Fixpoint split_dots (cur : list ascii) (cs : list ascii) : list (list ascii) :=
  match cs with
  | [] => [rev cur]
  | c :: rest =>
      if Ascii.eqb c "."%char then rev cur :: split_dots [] rest
      else split_dots (c :: cur) rest
  end.

(** [net.ParseIP] on a dotted-quad IPv4 address: the 16-byte form.  IPv6
    text, which [net.ParseIP] reads too, is outside this model: an address
    read here is read by Go, one refused here may not be. *)
Definition ParseIP (s : string) : option IP :=
  match map octet (split_dots [] (list_ascii_of_string s)) with
  | [Some a; Some b; Some c; Some d] =>
      Some (repeat "000"%byte 10 ++ ["255"%byte; "255"%byte]
            ++ map byte_of_Z [a; b; c; d])
  | _ => None
  end.

(** A [time.Time] field: [UnmarshalJSON] takes a JSON string or [null]. *)
Definition store_Time (v : json) (cur : Time) (saved : option error)
  : stored Time :=
  match v with
  | JNull => inr (cur, saved)
  | JString s =>
      match ParseRFC3339 s with
      | Some t => inr (t, saved)
      | None => inl (ParseError "Time" s)
      end
  | _ => inl (errorString "Time.UnmarshalJSON: input is not a JSON string")
  end.

(** A [net.IP] field: [UnmarshalText] takes the content of a JSON string. *)
Definition store_IP (field : string) (v : json) (cur : IP)
  (saved : option error) : stored IP :=
  match v with
  | JNull => inr ([], saved)
  | JString s =>
      if String.eqb s EmptyString then inr ([], saved)
      else
        match ParseIP s with
        | Some ip => inr (ip, saved)
        | None => inl (ParseError "IP address" s)
        end
  | _ => mismatch field v cur saved
  end.

Module AuditStream.

(** The [Response] struct of [Next] and [WriteTo], with its two nested
    structs. *)
Record Request : Type := {
  req_IP : IP;
  req_APIPath : string;
  req_Identity : Identity
}.

Record Reply : Type := {
  reply_StatusCode : Z;
  reply_Time : Duration
}.

Record Response : Type := {
  resp_Timestamp : Time;
  resp_Request : Request;
  resp_Response : Reply
}.

Definition zeroResponse : Response :=
  {| resp_Timestamp := zeroTime;
     resp_Request := {| req_IP := []; req_APIPath := EmptyString;
                        req_Identity := EmptyString |};
     resp_Response := {| reply_StatusCode := 0%Z; reply_Time := 0%Z |} |}.

Definition request_member (key : string) (v : json) (cur : Request)
  (saved : option error) : stored Request :=
  if names key "ip" then
    into (store_IP "request.ip" v (req_IP cur) saved)
         (fun x => {| req_IP := x; req_APIPath := req_APIPath cur;
                      req_Identity := req_Identity cur |})
  else if names key "path" then
    into (store_string "request.path" v (req_APIPath cur) saved)
         (fun x => {| req_IP := req_IP cur; req_APIPath := x;
                      req_Identity := req_Identity cur |})
  else if names key "identity" then
    into (store_string "request.identity" v (req_Identity cur) saved)
         (fun x => {| req_IP := req_IP cur; req_APIPath := req_APIPath cur;
                      req_Identity := x |})
  else inr (cur, saved).

Definition reply_member (key : string) (v : json) (cur : Reply)
  (saved : option error) : stored Reply :=
  if names key "code" then
    into (store_int64 "response.code" v (reply_StatusCode cur) saved)
         (fun x => {| reply_StatusCode := x; reply_Time := reply_Time cur |})
  else if names key "time" then
    into (store_int64 "response.time" v (reply_Time cur) saved)
         (fun x => {| reply_StatusCode := reply_StatusCode cur; reply_Time := x |})
  else inr (cur, saved).

Definition member (key : string) (v : json) (cur : Response)
  (saved : option error) : stored Response :=
  if names key "time" then
    into (store_Time v (resp_Timestamp cur) saved)
         (fun x => {| resp_Timestamp := x; resp_Request := resp_Request cur;
                      resp_Response := resp_Response cur |})
  else if names key "request" then
    into (store_struct "request" request_member v (resp_Request cur) saved)
         (fun x => {| resp_Timestamp := resp_Timestamp cur; resp_Request := x;
                      resp_Response := resp_Response cur |})
  else if names key "response" then
    into (store_struct "response" reply_member v (resp_Response cur) saved)
         (fun x => {| resp_Timestamp := resp_Timestamp cur;
                      resp_Request := resp_Request cur; resp_Response := x |})
  else inr (cur, saved).

Definition Unmarshal : json -> error + Response :=
  unmarshal_struct member zeroResponse.

(** The [AuditEvent] literal at the end of [Next]. *)
Definition toEvent (resp : Response) : AuditEvent :=
  {| Timestamp := resp_Timestamp resp;
     APIPath := req_APIPath (resp_Request resp);
     ClientIP := req_IP (resp_Request resp);
     ClientIdentity := req_Identity (resp_Request resp);
     StatusCode := reply_StatusCode (resp_Response resp);
     ResponseTime := reply_Time (resp_Response resp) |}.

Definition zeroEvent : AuditEvent :=
  {| Timestamp := zeroTime; APIPath := EmptyString; ClientIP := [];
     ClientIdentity := EmptyString;
     StatusCode := 0%Z; ResponseTime := 0%Z |}.

Definition Event (s : Stream AuditEvent) : AuditEvent := Event_ s.

Definition Next : Stream AuditEvent -> bool * Stream AuditEvent :=
  Next Unmarshal toEvent.

(** [WriteTo], over the encoding [json.Marshal] gives a [Response]. *)
Definition WriteTo (Marshal : Response -> error + list byte) {W} `{Writer W}
  : Stream AuditEvent -> W -> (Z * option error) * (Stream AuditEvent * W) :=
  WriteTo Unmarshal Marshal.

Definition Close : Stream AuditEvent -> option error * Stream AuditEvent :=
  Close.

End AuditStream.

Definition NewAuditStream (r : Reader) : Stream AuditEvent :=
  NewStream AuditStream.zeroEvent r.

(** ** Definitions for the further properties *)

(** The records [Decode] hands out before it first fails: those of the
    chunks up to the first that is not a record. *)
Fixpoint records_ahead {Response} (Unmarshal : json -> error + Response)
  (l : list chunk) : list Response :=
  match l with
  | Doc v :: rest =>
      match Unmarshal v with
      | inr resp => resp :: records_ahead Unmarshal rest
      | inl _ => []
      end
  | _ => []
  end.

(** The records [rs] encoded one after the other into the sink [w]: the
    position and the error of the first [Encode] that fails, if one does. *)
Fixpoint first_encode_failure {Response} (Marshal : Response -> error + list byte)
  {W} `{Writer W} (w : W) (rs : list Response) : option (nat * error) :=
  match rs with
  | [] => None
  | resp :: rest =>
      match Encode Marshal w resp with
      | (Some e, _) => Some (0, e)
      | (None, w') =>
          match first_encode_failure Marshal w' rest with
          | Some (n, e) => Some (S n, e)
          | None => None
          end
      end
  end.

(** The pieces [ps] written one after the other, whether a write fails or
    not: the count each [Write] reported, and the sink after the last. *)
Fixpoint write_all {W} `{Writer W} (w : W) (ps : list (list byte))
  : list Z * W :=
  match ps with
  | [] => ([], w)
  | p :: rest =>
      let '((n, _), w1) := Write w p in
      let '(ns, w2) := write_all w1 rest in
      (n :: ns, w2)
  end.

Definition sum_Z (ns : list Z) : Z := fold_right Z.add 0%Z ns.

(** The relay can go no further than [rest]: nothing is left, or what
    comes first is not a record. *)
Definition relay_ends {Response} (Unmarshal : json -> error + Response)
  (rest : list chunk) : bool :=
  match rest with
  | [] => true
  | c :: _ => not_nil (malformed Unmarshal c)
  end.

(** The line [Encode] writes for a marshalled record. *)
Definition line (b : list byte) : list byte := b ++ ["010"%byte].

(** A closer after its one call. *)
Definition called (k : Closer) : Closer := snd (Closer_Close k).

(** An audit record with the given fields, the two numbers as the
    literals on the wire. *)
Definition audit_json (time ip path identity code duration : string) : json :=
  JObject
    [("time"%string, JString time);
     ("request"%string,
      JObject [("ip"%string, JString ip);
               ("path"%string, JString path);
               ("identity"%string, JString identity)]);
     ("response"%string,
      JObject [("code"%string, JNumber code);
               ("time"%string, JNumber duration)])].

(** ** Inputs of the scenarios *)

(** The wire record [{"message": m}]. *)
Definition message_record (m : string) : json :=
  JObject [("message"%string, JString m)].

(** The audit record of section 8 of the specification, with [duration]
    as its [response.time]. *)
Definition audit_record (duration : json) : json :=
  JObject
    [("time"%string, JString "2024-01-01T00:00:00Z");
     ("request"%string,
      JObject [("ip"%string, JString "10.0.0.1");
               ("path"%string, JString "/v1/key/create");
               ("identity"%string, JString "abc123")]);
     ("response"%string,
      JObject [("code"%string, JNumber "200");
               ("time"%string, duration)])].

(** A closer that has not been called and will succeed. *)
Definition quiet_closer : Closer := {| close_err := None; close_calls := 0 |}.

Definition empty_buffer : Buffer := {| buf := [] |}.

(** A sink with no room left. *)
Definition full_sink : LimitedWriter :=
  {| room := 0; taken := []; full := errorString "short write" |}.

(** * Properties *)

Section Properties.
Context {Response Event : Type}.
Variable Unmarshal : json -> error + Response.
Variable Marshal : Response -> error + list byte.
Variable toEvent : Response -> Event.
Variable zeroEvent : Event.

Let Stream := Stream Event.

(** ** Close *)

Lemma Close_closed (s : Stream) : closed (snd (Close s)) = true.
Proof.
  unfold Close. destruct (closed s) eqn:Hc; simpl; [assumption|].
  destruct (closer s); simpl; [|reflexivity].
  destruct (not_nil (err s)); reflexivity.
Qed.

Lemma Close_again (s : Stream) : closed s = true -> Close s = (err s, s).
Proof. intros Hc. unfold Close. rewrite Hc. reflexivity. Qed.

Lemma Close_event (s : Stream) : event (snd (Close s)) = event s.
Proof.
  unfold Close. destruct (closed s); simpl; [reflexivity|].
  destruct (closer s); simpl; [|reflexivity].
  destruct (not_nil (err s)); reflexivity.
Qed.

(** [Close] calls the closer once if the stream was open, and not at all
    if it was closed. *)
Lemma Close_closes (s : Stream) :
  closes (snd (Close s)) =
  match closer s with
  | Some _ => if closed s then closes s else S (closes s)
  | None => 0
  end.
Proof.
  unfold Close, closes. destruct s as [d [c|] ev e [|]]; simpl; try reflexivity.
  destruct (not_nil e); reflexivity.
Qed.

(** ** Next *)

Lemma Next_stopped (s : Stream) :
  not_nil (err s) || closed s = true -> Next Unmarshal toEvent s = (false, s).
Proof. intros Hs. unfold Next. rewrite Hs. reflexivity. Qed.

Lemma Next_record (s : Stream) (v : json) (rest : list chunk) (resp : Response) :
  err s = None -> closed s = false ->
  pending (decoder s) = Doc v :: rest -> Unmarshal v = inr resp ->
  Next Unmarshal toEvent s =
  (true, set_event (toEvent resp)
           (set_decoder {| pending := rest; decodes := S (decodes (decoder s)) |} s)).
Proof.
  intros He Hc Hp Hu. unfold Next, Decode.
  rewrite He, Hc, Hp, Hu. reflexivity.
Qed.

Lemma Next_end_of_input (s : Stream) :
  err s = None -> closed s = false -> pending (decoder s) = [] ->
  Next Unmarshal toEvent s =
  (false,
   let s1 := set_decoder {| pending := []; decodes := S (decodes (decoder s)) |} s in
   set_err (fst (Close s1)) (snd (Close s1))).
Proof.
  intros He Hc Hp. unfold Next, Decode.
  rewrite He, Hc, Hp. simpl. destruct (Close _). reflexivity.
Qed.


Lemma run_Next_stopped (n : nat) (s : Stream) :
  not_nil (err s) || closed s = true ->
  run_Next Unmarshal toEvent n s = (repeat (false, event s) n, s).
Proof.
  intros Hs. induction n as [|n IH]; simpl; [reflexivity|].
  rewrite (Next_stopped s Hs), IH. reflexivity.
Qed.

Lemma run_Next_app (n m : nat) (s : Stream) :
  run_Next Unmarshal toEvent (n + m) s =
  (fst (run_Next Unmarshal toEvent n s)
     ++ fst (run_Next Unmarshal toEvent m (snd (run_Next Unmarshal toEvent n s))),
   snd (run_Next Unmarshal toEvent m (snd (run_Next Unmarshal toEvent n s)))).
Proof.
  revert s. induction n as [|n IH]; intros s; simpl.
  - destruct (run_Next Unmarshal toEvent m s); reflexivity.
  - destruct (Next Unmarshal toEvent s) as [ok s1]. rewrite IH.
    destruct (run_Next Unmarshal toEvent n s1) as [l1 s2]. reflexivity.
Qed.

Lemma last_cons_default {A} (a d : A) (l : list A) : last (a :: l) d = last l a.
Proof.
  revert a d. induction l as [|b l IH]; intros a d; [reflexivity|].
  change (last (a :: b :: l) d) with (last (b :: l) d).
  rewrite (IH b d), (IH b a). reflexivity.
Qed.

(** [Next] over a run of well-formed records: one true per record, the
    events in wire order, and the stream still open after them. *)
Lemma run_Next_records (docs : list json) :
  forall (rs : list Response) (rest : list chunk) (s : Stream),
  map Unmarshal docs = map inr rs ->
  err s = None -> closed s = false ->
  pending (decoder s) = map Doc docs ++ rest ->
  exists s',
    run_Next Unmarshal toEvent (length docs) s
      = (map (fun r => (true, toEvent r)) rs, s')
    /\ err s' = None /\ closed s' = false /\ closer s' = closer s
    /\ pending (decoder s') = rest
    /\ decodes (decoder s') = length docs + decodes (decoder s)
    /\ event s' = last (map toEvent rs) (event s).
Proof.
  induction docs as [|v docs IH]; intros rs rest s Hu He Hc Hp.
  - destruct rs; [|discriminate]. exists s. simpl. auto 10.
  - destruct rs as [|r rs]; [discriminate|]. simpl in Hu.
    injection Hu as Hv Hu. simpl in Hp.
    simpl. rewrite (Next_record s He Hc Hp Hv).
    destruct (IH rs rest
                (set_event (toEvent r)
                   (set_decoder {| pending := map Doc docs ++ rest;
                                   decodes := S (decodes (decoder s)) |} s))
                Hu He Hc eq_refl)
      as (s' & Hrun & He' & Hc' & Hcl & Hp' & Hd & Hev).
    exists s'. rewrite Hrun. simpl in *.
    repeat split; try assumption.
    + rewrite Hd. lia.
    + rewrite Hev. symmetry. apply last_cons_default.
Qed.

Lemma Close_result_open (s : Stream) :
  closed s = false ->
  fst (Close s) = match closer s with
                  | Some k => close_err k
                  | None => err s
                  end.
Proof.
  intros Hc. unfold Close. rewrite Hc. simpl.
  destruct (closer s); reflexivity.
Qed.

(** [Next] over a whole well-formed input, for any record shape: one true
    per record with the conversion of that record stored, then false for
    good, nothing stored as error when the close does not fail. *)
Lemma run_Next_well_formed (docs : list json) (rs : list Response)
  (c : option Closer) (extra : nat) :
  map Unmarshal docs = map inr rs ->
  (forall k, c = Some k -> close_err k = None) ->
  let s0 := NewStream zeroEvent {| wire := map Doc docs; as_Closer := c |} in
  let run := run_Next Unmarshal toEvent (length docs + S extra) s0 in
  fst run = map (fun r => (true, toEvent r)) rs
            ++ repeat (false, last (map toEvent rs) zeroEvent) (S extra)
  /\ Err (snd run) = None
  /\ closed (snd run) = true.
Proof.
  intros Hu Hclose s0 run. subst run. rewrite run_Next_app.
  destruct (run_Next_records docs rs [] s0 Hu eq_refl eq_refl)
    as (s' & Hrun & He & Hc & Hcl & Hp & _ & Hev).
  { simpl. rewrite app_nil_r. reflexivity. }
  rewrite Hrun. cbn [fst snd].
  cbn [run_Next]. rewrite (Next_end_of_input s' He Hc Hp).
  set (s1 := set_decoder _ s').
  set (s2 := set_err (fst (Close s1)) (snd (Close s1))).
  assert (Hc2 : closed s2 = true) by apply (Close_closed s1).
  assert (He2 : err s2 = None).
  { subst s2. simpl. rewrite (Close_result_open s1 Hc).
    subst s1. simpl. rewrite Hcl. simpl.
    destruct c as [k|]; [apply (Hclose k eq_refl)|exact He]. }
  assert (Hev2 : event s2 = last (map toEvent rs) zeroEvent).
  { change (event s2) with (event (snd (Close s1))).
    rewrite Close_event. exact Hev. }
  rewrite (run_Next_stopped extra s2) by (rewrite Hc2; apply orb_true_r).
  cbn [fst snd]. unfold Event_. rewrite Hev2.
  split; [reflexivity|split; [exact He2|exact Hc2]].
Qed.


(** C8. Once the stream is closed or holds an error, [Next] returns false
    at once: the stream is left as it was and the decoder is not called. *)
Theorem Next_after_termination (s : Stream) :
  closed s = true \/ err s <> None ->
  Next Unmarshal toEvent s = (false, s)
  /\ decodes (decoder (snd (Next Unmarshal toEvent s))) = decodes (decoder s).
Proof.
  intros Hs.
  assert (Hstop : not_nil (err s) || closed s = true).
  { destruct Hs as [Hc|He].
    - rewrite Hc. apply orb_true_r.
    - destruct (err s); [reflexivity|contradiction]. }
  rewrite (Next_stopped s Hstop). split; reflexivity.
Qed.

(** ** WriteTo *)

Section Relay.
Context {W : Type} `{Writer W}.

(** One turn of the loop of [WriteTo]. *)
Lemma WriteTo_loop_step (s : Stream) (cw : countWriter W) :
  WriteTo_loop Unmarshal Marshal s cw =
  match Decode Unmarshal (decoder s) with
  | (inl e, d) =>
      if errors_Is e io_EOF then
        let '(ce, s') := Close (set_decoder d s) in
        ((cw_N cw, ce), (set_err ce s', cw_W cw))
      else ((cw_N cw, Some e), (set_err (Some e) (set_decoder d s), cw_W cw))
  | (inr resp, d) =>
      match Encode Marshal cw resp with
      | (Some e, cw') =>
          ((cw_N cw', Some e), (set_err (Some e) (set_decoder d s), cw_W cw'))
      | (None, cw') => WriteTo_loop Unmarshal Marshal (set_decoder d s) cw'
      end
  end.
Proof.
  funelim (WriteTo_loop Unmarshal Marshal s cw).
  - rewrite e1. reflexivity.
  - rewrite Hd, Heq. reflexivity.
  - rewrite Hd, Heq. reflexivity.
Qed.

(** One turn of a caller's loop over [Next]. *)
Lemma Next_until_false_step (s : Stream) :
  Next_until_false Unmarshal toEvent s =
  if fst (Next Unmarshal toEvent s)
  then Next_until_false Unmarshal toEvent (snd (Next Unmarshal toEvent s))
  else snd (Next Unmarshal toEvent s).
Proof.
  funelim (Next_until_false Unmarshal toEvent s).
  - rewrite Hn. reflexivity.
  - rewrite e. reflexivity.
Qed.

Lemma errors_Is_EOF_EOF : errors_Is io_EOF io_EOF = true.
Proof. reflexivity. Qed.

(** What [WriteTo] does to the stream besides moving the decoder and
    setting the error is at most one [Close]. *)
Lemma WriteTo_loop_preserves (P : Stream -> Prop) :
  (forall d s, P s -> P (set_decoder d s)) ->
  (forall e s, P s -> P (set_err e s)) ->
  (forall s, P s -> P (snd (Close s))) ->
  forall (l : list chunk) (s : Stream) (cw : countWriter W),
  pending (decoder s) = l -> P s ->
  P (fst (snd (WriteTo_loop Unmarshal Marshal s cw))).
Proof.
  intros Hdec Herr Hclose.
  assert (Hfail : forall e d s (cw : countWriter W),
    P s ->
    P (fst (snd (if errors_Is e io_EOF
                 then let '(ce, s') := Close (set_decoder d s) in
                      ((cw_N cw, ce), (set_err ce s', cw_W cw))
                 else ((cw_N cw, Some e),
                       (set_err (Some e) (set_decoder d s), cw_W cw)))))).
  { intros e d s cw Hs. destruct (errors_Is e io_EOF).
    - pose proof (Hclose _ (Hdec d s Hs)) as Hc.
      destruct (Close (set_decoder d s)) as [ce s']. simpl in *.
      apply Herr. exact Hc.
    - simpl. apply Herr, Hdec, Hs. }
  induction l as [|c rest IH]; intros s cw Hp Hs;
    rewrite WriteTo_loop_step; unfold Decode; rewrite Hp.
  - apply Hfail, Hs.
  - destruct c as [v|e].
    + destruct (Unmarshal v) as [e|resp].
      * apply Hfail, Hs.
      * destruct (Encode Marshal cw resp) as [[e|] cw'].
        -- simpl. apply Herr, Hdec, Hs.
        -- apply IH; [reflexivity|apply Hdec, Hs].
    + apply Hfail, Hs.
Qed.

Lemma Next_preserves (P : Stream -> Prop) :
  (forall d s, P s -> P (set_decoder d s)) ->
  (forall e s, P s -> P (set_err e s)) ->
  (forall ev s, P s -> P (set_event ev s)) ->
  (forall s, P s -> P (snd (Close s))) ->
  forall s : Stream, P s -> P (snd (Next Unmarshal toEvent s)).
Proof.
  intros Hdec Herr Hev Hclose s Hs. unfold Next.
  destruct (not_nil (err s) || closed s); [exact Hs|].
  destruct (Decode Unmarshal (decoder s)) as [[e|resp] d].
  - destruct (errors_Is e io_EOF).
    + pose proof (Hclose _ (Hdec d s Hs)) as Hc.
      destruct (Close (set_decoder d s)) as [ce s']. simpl in *.
      apply Herr, Hc.
    + simpl. apply Herr, Hdec, Hs.
  - simpl. apply Hev, Hdec, Hs.
Qed.

Lemma closed_once_Close (n0 : nat) (s : Stream) :
  closed_once n0 s -> closed_once n0 (snd (Close s)).
Proof.
  unfold closed_once. intros (Hle & Hopen & Hnone).
  destruct s as [d [c|] ev e [|]]; unfold Close, closes in *; simpl in *.
  - auto.
  - specialize (Hopen eq_refl). subst n0.
    destruct (not_nil e); simpl; repeat split; try lia; discriminate.
  - auto.
  - specialize (Hnone eq_refl). subst n0. repeat split; auto.
Qed.

Lemma closed_once_perform (n0 : nat) (s : Stream) (c : call W) :
  closed_once n0 s ->
  closed_once n0 (perform Unmarshal Marshal toEvent s c).
Proof.
  intros Hs. destruct c as [| |w]; simpl.
  - apply Next_preserves; auto using closed_once_Close.
  - apply closed_once_Close, Hs.
  - unfold WriteTo.
    apply (WriteTo_loop_preserves (closed_once n0))
      with (l := pending (decoder s)); auto using closed_once_Close.
Qed.

Lemma closed_once_perform_all (n0 : nat) (cs : list (call W)) :
  forall s : Stream,
  closed_once n0 s ->
  closed_once n0 (perform_all Unmarshal Marshal toEvent cs s).
Proof.
  unfold perform_all.
  induction cs as [|c cs IH]; intros s Hs; simpl; [exact Hs|].
  apply IH, closed_once_perform, Hs.
Qed.

(** C10. [WriteTo] leaves the stored event alone: [Event()] gives after the
    call what it gave before, whatever was decoded and relayed. *)
Theorem WriteTo_keeps_event (s : Stream) (w : W) :
  Event_ (fst (snd (WriteTo Unmarshal Marshal s w))) = Event_ s.
Proof.
  unfold WriteTo, Event_.
  apply (WriteTo_loop_preserves (fun s' => event s' = event s))
    with (l := pending (decoder s)); try reflexivity.
  - intros d s' Hs'. exact Hs'.
  - intros e s' Hs'. exact Hs'.
  - intros s' Hs'. rewrite Close_event. exact Hs'.
Qed.

Lemma wrap64_small (z : Z) : (- 2 ^ 63 <= z < 2 ^ 63)%Z -> wrap64 z = z.
Proof.
  intros Hz. unfold wrap64. rewrite Z.mod_small; lia.
Qed.

Lemma Encode_accepted (cw : countWriter W) (resp : Response) (b : list byte) :
  accepts_all W -> Marshal resp = inr b ->
  (0 <= cw_N cw)%Z -> (cw_N cw + Z.of_nat (encoded_size b) < 2 ^ 63)%Z ->
  exists cw',
    Encode Marshal cw resp = (None, cw')
    /\ cw_N cw' = (cw_N cw + Z.of_nat (encoded_size b))%Z.
Proof.
  intros Hacc Hm Hlo Hhi. unfold Encode. rewrite Hm.
  unfold Write at 1, countWriter_Writer, countWriter_Write.
  pose proof (Hacc (cw_W cw) (b ++ ["010"%byte])) as Hw.
  destruct (Write (cw_W cw) (b ++ ["010"%byte])) as [[n e] inner].
  simpl in Hw. injection Hw as -> ->.
  eexists. split; [reflexivity|]. simpl.
  rewrite length_app. simpl. unfold encoded_size in *.
  rewrite (@wrap64_small (Z.of_nat (length b + 1))) by lia.
  apply wrap64_small. lia.
Qed.

(** [WriteTo] over a run of well-formed records, written to a sink that
    takes them: the loop is past them with their sizes counted. *)
Lemma WriteTo_loop_records (docs : list json) :
  forall (rs : list Response) (bs : list (list byte)) (rest : list chunk)
         (s : Stream) (cw : countWriter W),
  accepts_all W ->
  map Unmarshal docs = map inr rs -> map Marshal rs = map inr bs ->
  pending (decoder s) = map Doc docs ++ rest ->
  (0 <= cw_N cw)%Z ->
  (cw_N cw + Z.of_nat (list_sum (map encoded_size bs)) < 2 ^ 63)%Z ->
  exists d' cw',
    pending d' = rest
    /\ WriteTo_loop Unmarshal Marshal s cw
       = WriteTo_loop Unmarshal Marshal (set_decoder d' s) cw'
    /\ cw_N cw' = (cw_N cw + Z.of_nat (list_sum (map encoded_size bs)))%Z.
Proof.
  induction docs as [|v docs IH]; intros rs bs rest s cw Hacc Hu Hm Hp Hlo Hhi.
  - destruct rs; [|discriminate]. destruct bs; [|discriminate].
    exists (decoder s), cw. simpl in *. repeat split; try assumption.
    + destruct s; reflexivity.
    + lia.
  - destruct rs as [|r rs]; [discriminate|].
    destruct bs as [|b bs]; [discriminate|].
    simpl in Hu, Hm, Hp. injection Hu as Hv Hu. injection Hm as Hb Hm.
    change (list_sum (map encoded_size (b :: bs)))
      with (encoded_size b + list_sum (map encoded_size bs)) in Hhi.
    destruct (Encode_accepted cw Hacc Hb Hlo) as (cw1 & Henc & Hn1); [lia|].
    destruct (IH rs bs rest
                (set_decoder {| pending := map Doc docs ++ rest;
                                decodes := S (decodes (decoder s)) |} s)
                cw1 Hacc Hu Hm eq_refl)
      as (d' & cw' & Hd' & Hloop & Hn'); try lia.
    exists d', cw'. split; [exact Hd'|]. split.
    + rewrite WriteTo_loop_step. unfold Decode. rewrite Hp, Hv, Henc.
      exact Hloop.
    + rewrite Hn', Hn1.
      change (list_sum (map encoded_size (b :: bs)))
        with (encoded_size b + list_sum (map encoded_size bs)).
      lia.
Qed.


Lemma Close_set_event (ev : Event) (s : Stream) :
  Close (set_event ev s) = (fst (Close s), set_event ev (snd (Close s))).
Proof.
  destruct s as [d [k|] ev0 e [|]]; unfold Close; simpl; try reflexivity.
  destruct (not_nil e); reflexivity.
Qed.

Lemma set_event_same (s : Stream) : set_event (event s) s = s.
Proof. destruct s; reflexivity. Qed.

(** Both loops stop the same way when [Decode] fails with [e]. *)
Ltac stop_the_same e d s :=
  destruct (errors_Is e io_EOF);
  [ change (set_decoder d (set_event ?ev s))
      with (set_event ev (set_decoder d s));
    rewrite Close_set_event;
    let HC := fresh "HC" in
    let Hev := fresh "Hev" in
    pose proof (Close_event (set_decoder d s)) as Hev;
    destruct (Close (set_decoder d s)) as [? [? ? ? ? ?]] eqn:HC;
    simpl in Hev; subst; reflexivity
  | reflexivity ].

(** [Encode] through a [countWriter] gives the error and the sink that
    [Encode] into the sink itself gives. *)
Lemma Encode_through_countWriter (cw : countWriter W) (resp : Response) :
  fst (Encode Marshal cw resp) = fst (Encode Marshal (cw_W cw) resp)
  /\ cw_W (snd (Encode Marshal cw resp)) = snd (Encode Marshal (cw_W cw) resp).
Proof.
  unfold Encode. destruct (Marshal resp) as [e|b]; [split; reflexivity|].
  change (@Write (countWriter W) countWriter_Writer cw (b ++ ["010"%byte]))
    with (countWriter_Write cw (b ++ ["010"%byte])).
  unfold countWriter_Write.
  destruct (Write (cw_W cw) (b ++ ["010"%byte])) as [[n e] inner].
  split; reflexivity.
Qed.

(** The two loops side by side, up to the first [Encode] that fails. *)
Lemma WriteTo_loop_or_Next (l : list chunk) :
  forall (s : Stream) (ev : Event) (cw : countWriter W),
  pending (decoder s) = l -> err s = None -> closed s = false ->
  match first_encode_failure Marshal (cw_W cw) (records_ahead Unmarshal l) with
  | None =>
      fst (snd (WriteTo_loop Unmarshal Marshal s cw))
      = set_event (event s)
          (Next_until_false Unmarshal toEvent (set_event ev s))
  | Some (n, e) =>
      snd (fst (WriteTo_loop Unmarshal Marshal s cw)) = Some e
      /\ err (fst (snd (WriteTo_loop Unmarshal Marshal s cw))) = Some e
      /\ closed (fst (snd (WriteTo_loop Unmarshal Marshal s cw))) = false
      /\ closer (fst (snd (WriteTo_loop Unmarshal Marshal s cw))) = closer s
      /\ pending (decoder (fst (snd (WriteTo_loop Unmarshal Marshal s cw))))
         = skipn (S n) l
  end.
Proof.
  induction l as [|c rest IH]; intros s ev cw Hp He Hc.
  - cbn [records_ahead first_encode_failure].
    rewrite WriteTo_loop_step, Next_until_false_step.
    unfold Next. cbn [err closed decoder set_event].
    rewrite He, Hc. cbn [not_nil orb].
    unfold Decode. rewrite Hp. cbv beta iota zeta.
    stop_the_same io_EOF
      {| pending := []; decodes := S (decodes (decoder s)) |} s.
  - destruct c as [v|e]; cbn [records_ahead].
    + destruct (Unmarshal v) as [e|resp] eqn:Hu.
      * cbn [first_encode_failure].
        rewrite WriteTo_loop_step, Next_until_false_step.
        unfold Next. cbn [err closed decoder set_event].
        rewrite He, Hc. cbn [not_nil orb].
        unfold Decode. rewrite Hp, Hu. cbv beta iota zeta.
        stop_the_same e
          {| pending := rest; decodes := S (decodes (decoder s)) |} s.
      * cbn [first_encode_failure].
        destruct (Encode_through_countWriter cw resp) as [Hfst Hsnd].
        destruct (Encode Marshal cw resp) as [o cw'] eqn:Henc.
        destruct (Encode Marshal (cw_W cw) resp) as [o' w'].
        cbn [fst snd] in Hfst, Hsnd. subst o' w'.
        destruct o as [e|].
        -- rewrite WriteTo_loop_step. unfold Decode. rewrite Hp, Hu, Henc.
           cbn. repeat split. exact Hc.
        -- specialize (IH (set_decoder
                             {| pending := rest;
                                decodes := S (decodes (decoder s)) |} s)
                          (toEvent resp) cw' eq_refl He Hc).
           destruct (first_encode_failure Marshal (cw_W cw')
                       (records_ahead Unmarshal rest)) as [[n e]|].
           ++ rewrite WriteTo_loop_step. unfold Decode. rewrite Hp, Hu, Henc.
              exact IH.
           ++ rewrite WriteTo_loop_step, Next_until_false_step.
              unfold Next. cbn [err closed decoder set_event].
              rewrite He, Hc. cbn [not_nil orb].
              unfold Decode. rewrite Hp, Hu, Henc. cbv beta iota zeta.
              cbn [fst snd]. exact IH.
    + cbn [first_encode_failure].
      rewrite WriteTo_loop_step, Next_until_false_step.
      unfold Next. cbn [err closed decoder set_event].
      rewrite He, Hc. cbn [not_nil orb].
      unfold Decode. rewrite Hp. cbv beta iota zeta.
      stop_the_same e
        {| pending := Broken e :: rest; decodes := S (decodes (decoder s)) |} s.
Qed.

Lemma Next_until_false_stopped (l : list chunk) :
  forall s : Stream,
  pending (decoder s) = l ->
  let s' := Next_until_false Unmarshal toEvent s in
  not_nil (err s') || closed s' = true.
Proof.
  induction l as [|c rest IH]; intros s Hp; simpl;
    rewrite Next_until_false_step; unfold Next;
    destruct (not_nil (err s) || closed s) eqn:Hs; simpl; try exact Hs;
    unfold Decode; rewrite Hp.
  - rewrite errors_Is_EOF_EOF.
    pose proof (Close_closed (set_decoder
      {| pending := []; decodes := S (decodes (decoder s)) |} s)) as Hcl.
    destruct (Close _) as [ce s1]. simpl in *. rewrite Hcl. apply orb_true_r.
  - assert (Hfail : forall e d,
      let r := if errors_Is e io_EOF
               then let '(ce, s1) := Close (set_decoder d s) in
                    (false, set_err ce s1)
               else (false, set_err (Some e) (set_decoder d s)) in
      not_nil (err (if fst r then Next_until_false Unmarshal toEvent (snd r)
                    else snd r))
      || closed (if fst r then Next_until_false Unmarshal toEvent (snd r)
                 else snd r) = true).
    { intros e d. destruct (errors_Is e io_EOF); [|reflexivity].
      pose proof (Close_closed (set_decoder d s)) as Hcl.
      destruct (Close _) as [ce s1]. simpl in *. rewrite Hcl.
      apply orb_true_r. }
    destruct c as [v|e].
    + destruct (Unmarshal v) as [e|resp]; [apply Hfail|].
      simpl. apply IH. reflexivity.
    + apply Hfail.
Qed.

(** C5 (amended). On a stream that is open, whatever the input and the
    sink: when re-encoding fails for none of the records ahead, [WriteTo]
    leaves the decoder, the closer, the closed flag and the stored error
    exactly as calling [Next] until it returns false does (the stored event
    is the one thing [WriteTo] does not touch), and that state is final.
    When re-encoding fails, [WriteTo] stops at the first record for which it
    does: it returns and stores that error, leaves the stream not closed
    and its closer not called, and has consumed the records up to and
    including that one. *)
Theorem WriteTo_as_Next_until_false (s : Stream) (w : W) :
  err s = None -> closed s = false ->
  let r := WriteTo Unmarshal Marshal s w in
  let after_WriteTo := fst (snd r) in
  let after_Next := Next_until_false Unmarshal toEvent s in
  match first_encode_failure Marshal w
          (records_ahead Unmarshal (pending (decoder s))) with
  | None =>
      after_WriteTo = set_event (event s) after_Next
      /\ closed after_WriteTo = closed after_Next
      /\ err after_WriteTo = err after_Next
      /\ decoder after_WriteTo = decoder after_Next
      /\ closer after_WriteTo = closer after_Next
      /\ fst (Next Unmarshal toEvent after_Next) = false
  | Some (n, e) =>
      snd (fst r) = Some e
      /\ err after_WriteTo = Some e
      /\ closed after_WriteTo = false
      /\ closer after_WriteTo = closer s
      /\ pending (decoder after_WriteTo)
         = skipn (S n) (pending (decoder s))
  end.
Proof.
  intros He Hc r after_WriteTo after_Next.
  pose proof (@WriteTo_loop_or_Next (pending (decoder s)) s (event s)
                {| cw_W := w; cw_N := 0 |} eq_refl He Hc) as Hloop.
  cbn [cw_W] in Hloop.
  destruct (first_encode_failure Marshal w
              (records_ahead Unmarshal (pending (decoder s)))) as [[n e]|].
  - exact Hloop.
  - assert (Heq : after_WriteTo = set_event (event s) after_Next).
    { subst after_WriteTo after_Next r. unfold WriteTo.
      rewrite Hloop, set_event_same. reflexivity. }
    rewrite Heq. repeat split.
    pose proof (@Next_until_false_stopped (pending (decoder s)) s eq_refl)
      as Hst.
    simpl in Hst. fold after_Next in Hst.
    rewrite (Next_stopped after_Next Hst). reflexivity.
Qed.

(** C3 (amended). The first [Close] marks the stream closed.  With a closer
    it closes the resource, stores the close error as the sticky error only
    if none was stored, and returns the close error itself, which is the
    sticky error only when none was stored before; with no closer it
    returns the sticky error.  Every later [Close] returns the stored sticky
    error and changes nothing.  So two calls in a row return the same error
    when no error was stored before the first, when there is no closer, or
    when the stream was closed already; and over any sequence of [Next],
    [WriteTo] and [Close] calls the resource is closed at most once. *)
Theorem Close_twice (s : Stream) :
  let e1 := fst (Close s) in
  let s1 := snd (Close s) in
  let e2 := fst (Close s1) in
  let s2 := snd (Close s1) in
  closed s1 = true
  /\ e1 = (if closed s then err s
           else match closer s with
                | Some k => close_err k
                | None => err s
                end)
  /\ err s1 = (if closed s then err s
               else match closer s, err s with
                    | Some k, None => close_err k
                    | _, _ => err s
                    end)
  /\ closes s1 = (if closed s then closes s
                  else match closer s with
                       | Some k => S (close_calls k)
                       | None => 0
                       end)
  /\ e2 = err s1 /\ s2 = s1
  /\ (err s = None \/ closer s = None \/ closed s = true -> e1 = e2)
  /\ (forall (cs : list (call W)) (r : Reader),
        closes (perform_all Unmarshal Marshal toEvent cs (NewStream zeroEvent r))
        <= S (closes (NewStream zeroEvent r))).
Proof.
  intros e1 s1 e2 s2. subst e1 s1 e2 s2.
  split; [apply Close_closed|].
  rewrite (Close_again (snd (Close s)) (Close_closed s)). cbn [fst snd].
  repeat split.
  - destruct s as [d [k|] ev e [|]]; reflexivity.
  - destruct s as [d [k|] ev [e|] [|]]; reflexivity.
  - destruct s as [d [k|] ev [e|] [|]]; reflexivity.
  - intros Hsame.
    destruct s as [d [k|] ev [e|] [|]]; simpl in *; try reflexivity.
    destruct Hsame as [Hs|[Hs|Hs]]; discriminate.
  - intros cs r.
    apply (@closed_once_perform_all (closes (NewStream zeroEvent r)) cs
             (NewStream zeroEvent r)).
    unfold closed_once. auto.
Qed.

End Relay.

End Properties.

(** ** The error query *)

Section ErrorQuery.
Context {Response Event : Type}.
Variable Unmarshal : json -> error + Response.
Variable Marshal : Response -> error + list byte.
Variable toEvent : Response -> Event.
Variable zeroEvent : Event.
Context {W : Type} `{Writer W}.

Let Stream := Stream Event.

Lemma Err_kept_by_call (s : Stream) (e : error) (c : call W) :
  writes c = false -> Err s = Some e ->
  Err (perform Unmarshal Marshal toEvent s c) = Some e.
Proof.
  unfold Err. intros Hw He. destruct c as [| |w]; [| |discriminate]; simpl.
  - rewrite Next_stopped; [exact He|]. rewrite He. reflexivity.
  - destruct s as [d [k|] ev er [|]]; simpl in *; subst; reflexivity.
Qed.

Lemma flawless_Close (s : Stream) :
  flawless Unmarshal s -> flawless Unmarshal (snd (Close s)).
Proof.
  intros (He & Hk & Hp).
  destruct s as [d [k|] ev er [|]]; simpl in *; subst;
    unfold flawless; simpl; auto.
  split; [apply (Hk k eq_refl)|]. split; [|exact Hp].
  intros k' Hk'. injection Hk' as <-. simpl. apply (Hk k eq_refl).
Qed.

Lemma flawless_call (s : Stream) (c : call W) :
  writes c = false -> flawless Unmarshal s ->
  flawless Unmarshal (perform Unmarshal Marshal toEvent s c).
Proof.
  intros Hw Hs. destruct c as [| |w]; [| |discriminate]; simpl.
  - unfold Next. destruct (not_nil (err s) || closed s) eqn:Hstop; [exact Hs|].
    apply orb_false_elim in Hstop as [_ Hc].
    destruct Hs as (He & Hk & docs & rs & Hp & Hu).
    unfold Decode. rewrite Hp.
    destruct docs as [|v docs]; simpl.
    + pose proof (@flawless_Close
        (set_decoder {| pending := []; decodes := S (decodes (decoder s)) |} s))
        as Hcl.
      pose proof (Close_result_open
        (set_decoder {| pending := []; decodes := S (decodes (decoder s)) |} s))
        as Hres.
      destruct (Close _) as [ce s1]. simpl in *.
      destruct Hcl as (He1 & Hk1 & Hp1).
      { repeat split; auto. exists [], []. auto. }
      repeat split; auto.
      rewrite (Hres Hc). destruct (closer s) as [k|]; [|exact He].
      apply (Hk k eq_refl).
    + destruct rs as [|r rs]; [discriminate|]. simpl in Hu.
      injection Hu as Hv Hu. rewrite Hv. simpl.
      repeat split; auto. exists docs, rs. auto.
  - apply flawless_Close, Hs.
Qed.

(** What [Next] and [Close] do to the stored error: it is nil on a new
    stream; once stored, an error stays through any further [Next] and
    [Close] calls; and it stays nil over any [Next] and [Close] calls on an
    input whose records all decode and whose close, if there is one,
    succeeds. *)
Lemma Err_kept_by_Next_and_Close (cs : list (call W)) :
  forallb (fun c => negb (writes c)) cs = true ->
  (forall r : Reader, Err (NewStream zeroEvent r) = None)
  /\ (forall (s : Stream) (e : error),
        Err s = Some e ->
        Err (perform_all Unmarshal Marshal toEvent cs s) = Some e)
  /\ (forall (docs : list json) (rs : list Response) (c : option Closer),
        map Unmarshal docs = map inr rs ->
        (forall k, c = Some k -> close_err k = None) ->
        Err (perform_all Unmarshal Marshal toEvent cs
               (NewStream zeroEvent {| wire := map Doc docs; as_Closer := c |}))
        = None).
Proof.
  intros Hcs. split; [reflexivity|]. split.
  - induction cs as [|c cs' IH]; intros s e He; [exact He|].
    simpl in Hcs. apply andb_prop in Hcs as [Hc Hcs']. simpl.
    apply (IH Hcs'). apply Err_kept_by_call; [|exact He].
    destruct (writes c); [discriminate|reflexivity].
  - intros docs rs c Hu Hk.
    assert (Hall : forall s : Stream,
              flawless Unmarshal s ->
              flawless Unmarshal (perform_all Unmarshal Marshal toEvent cs s)).
    { clear Hu Hk. induction cs as [|c0 cs' IH]; intros s Hs; [exact Hs|].
      simpl in Hcs. apply andb_prop in Hcs as [Hc Hcs']. simpl.
      apply (IH Hcs'). apply flawless_call; [|exact Hs].
      destruct (writes c0); [discriminate|reflexivity]. }
    apply Hall. repeat split; auto. exists docs, rs. auto.
Qed.

End ErrorQuery.

(** * The two stream types on concrete inputs *)

Open Scope string_scope.

(** C1. On a well-formed input of N records, [ErrorStream.Next] and
    [AuditStream.Next] return true exactly N times and false on every later
    call.  Each true call stores the event of its record, in wire order: for
    an error record the [ErrorEvent] with its message, for an audit record
    the [AuditEvent] whose [Timestamp] is the record's time, whose [APIPath],
    [ClientIP] and [ClientIdentity] are the request's path, address and
    identity, and whose [StatusCode] and [ResponseTime] are the response's
    code and time.  When the reader is no closer or its close succeeds, the
    stored error is nil afterwards, and the stream closed. *)
Theorem Next_well_formed_input
  (edocs : list json) (ers : list ErrorStream.Response)
  (adocs : list json) (ars : list AuditStream.Response)
  (c : option Closer) (extra : nat) :
  map ErrorStream.Unmarshal edocs = map inr ers ->
  map AuditStream.Unmarshal adocs = map inr ars ->
  (forall k, c = Some k -> close_err k = None) ->
  let error_event (r : ErrorStream.Response) :=
    {| Message := ErrorStream.resp_Message r |} in
  let audit_event (r : AuditStream.Response) :=
    {| Timestamp := AuditStream.resp_Timestamp r;
       APIPath := AuditStream.req_APIPath (AuditStream.resp_Request r);
       ClientIP := AuditStream.req_IP (AuditStream.resp_Request r);
       ClientIdentity := AuditStream.req_Identity (AuditStream.resp_Request r);
       StatusCode := AuditStream.reply_StatusCode (AuditStream.resp_Response r);
       ResponseTime := AuditStream.reply_Time (AuditStream.resp_Response r) |} in
  let erun := run_Next ErrorStream.Unmarshal ErrorStream.toEvent
                (length edocs + S extra)
                (NewErrorStream {| wire := map Doc edocs; as_Closer := c |}) in
  let arun := run_Next AuditStream.Unmarshal AuditStream.toEvent
                (length adocs + S extra)
                (NewAuditStream {| wire := map Doc adocs; as_Closer := c |}) in
  (fst erun
   = (map (fun r => (true, error_event r)) ers
      ++ repeat (false, last (map error_event ers) {| Message := EmptyString |})
           (S extra))%list
   /\ Err (snd erun) = None /\ closed (snd erun) = true)
  /\
  (fst arun
   = (map (fun r => (true, audit_event r)) ars
      ++ repeat (false, last (map audit_event ars)
                          {| Timestamp := zeroTime; APIPath := EmptyString;
                             ClientIP := []; ClientIdentity := EmptyString;
                             StatusCode := 0%Z; ResponseTime := 0%Z |})
           (S extra))%list
   /\ Err (snd arun) = None /\ closed (snd arun) = true).
Proof.
  intros He Ha Hc error_event audit_event erun arun. split.
  - apply (run_Next_well_formed ErrorStream.Unmarshal ErrorStream.toEvent
             ErrorStream.zeroEvent edocs ers extra He Hc).
  - apply (run_Next_well_formed AuditStream.Unmarshal AuditStream.toEvent
             AuditStream.zeroEvent adocs ars extra Ha Hc).
Qed.

(** The scenario of section 8 for error records, [{"message":"a"}] then
    [{"message":"b"}], and the audit record of the same section with its
    response time as a number. *)
Lemma Next_well_formed_input_witness :
  let erun := run_Next ErrorStream.Unmarshal ErrorStream.toEvent 3
                (NewErrorStream
                   {| wire := [Doc (message_record "a");
                               Doc (message_record "b")];
                      as_Closer := Some quiet_closer |}) in
  let arun := run_Next AuditStream.Unmarshal AuditStream.toEvent 2
                (NewAuditStream
                   {| wire := [Doc (audit_record (JNumber "15000000"))];
                      as_Closer := Some quiet_closer |}) in
  let scenario_event :=
    {| Timestamp := {| year := 2024%Z; month := 1%Z; day := 1%Z;
                       hour := 0%Z; minute := 0%Z; second := 0%Z;
                       nanosecond := 0%Z; offset := 0%Z |};
       APIPath := "/v1/key/create";
       ClientIP := [x00; x00; x00; x00; x00; x00; x00; x00; x00; x00;
                    xff; xff; x0a; x00; x00; x01];
       ClientIdentity := "abc123";
       StatusCode := 200%Z;
       ResponseTime := 15000000%Z |} in
  (fst erun = [(true, {| Message := "a" |}); (true, {| Message := "b" |});
               (false, {| Message := "b" |})]
   /\ Err (snd erun) = None /\ closed (snd erun) = true)
  /\
  (fst arun = [(true, scenario_event); (false, scenario_event)]
   /\ Err (snd arun) = None /\ closed (snd arun) = true).
Proof.
  refine (@Next_well_formed_input
            [message_record "a"; message_record "b"]
            [{| ErrorStream.resp_Message := "a" |};
             {| ErrorStream.resp_Message := "b" |}]
            [audit_record (JNumber "15000000")]
            [{| AuditStream.resp_Timestamp :=
                  {| year := 2024%Z; month := 1%Z; day := 1%Z;
                     hour := 0%Z; minute := 0%Z; second := 0%Z;
                     nanosecond := 0%Z; offset := 0%Z |};
                AuditStream.resp_Request :=
                  {| AuditStream.req_IP :=
                       [x00; x00; x00; x00; x00; x00; x00; x00; x00; x00;
                        xff; xff; x0a; x00; x00; x01];
                     AuditStream.req_APIPath := "/v1/key/create";
                     AuditStream.req_Identity := "abc123" |};
                AuditStream.resp_Response :=
                  {| AuditStream.reply_StatusCode := 200%Z;
                     AuditStream.reply_Time := 15000000%Z |} |}]
            (Some quiet_closer) 0 _ _ _).
  - reflexivity.
  - reflexivity.
  - intros k Hk. injection Hk as <-. reflexivity.
Defined.


(** [Next] on a stream that was closed by hand. *)
Lemma Next_after_termination_witness :
  let s := snd (ErrorStream.Close
                  (NewErrorStream {| wire := [Doc (message_record "a")];
                                     as_Closer := Some quiet_closer |})) in
  ErrorStream.Next s = (false, s)
  /\ decodes (decoder (snd (ErrorStream.Next s))) = decodes (decoder s).
Proof.
  apply (@Next_after_termination _ _ ErrorStream.Unmarshal ErrorStream.toEvent).
  left. reflexivity.
Defined.

(** C3, as stated, fails.  A stream whose [Next] stored a decode error and
    whose closer succeeds: the first [Close] returns nil, not the sticky
    error, and the second returns the sticky error. *)
Lemma Close_twice_differs :
  let s := snd (ErrorStream.Next
                  (NewErrorStream
                     {| wire := [Broken (SyntaxError "invalid character")];
                        as_Closer := Some quiet_closer |})) in
  fst (ErrorStream.Close s) = None
  /\ Err (snd (ErrorStream.Close s)) = Some (SyntaxError "invalid character")
  /\ fst (ErrorStream.Close (snd (ErrorStream.Close s)))
     = Some (SyntaxError "invalid character")
  /\ fst (ErrorStream.Close s)
     <> fst (ErrorStream.Close (snd (ErrorStream.Close s))).
Proof.
  vm_compute. repeat split; discriminate.
Qed.

Lemma Close_twice_witness :
  let s := NewErrorStream {| wire := [Doc (message_record "a")];
                             as_Closer := Some quiet_closer |} in
  fst (ErrorStream.Close s)
  = fst (ErrorStream.Close (snd (ErrorStream.Close s))).
Proof.
  intros s.
  destruct (@Close_twice _ _ ErrorStream.Unmarshal ErrorStream.Marshal
              ErrorStream.toEvent ErrorStream.zeroEvent Buffer _ s)
    as (_ & _ & _ & _ & _ & _ & Hsame & _).
  apply Hsame. left. reflexivity.
Defined.

(** C4, the defect.  The first [WriteTo] meets a sink with no room and
    stores its error.  A second [WriteTo] finds the end of the input,
    closes, and stores what [Close] returned, nil: the first error is gone.
    With a broken record left on the wire, the second [WriteTo] stores the
    decode error in its place. *)
Theorem WriteTo_replaces_stored_error :
  (let s0 := NewErrorStream {| wire := [Doc (message_record "a")];
                               as_Closer := Some quiet_closer |} in
   let s1 := fst (snd (ErrorStream.WriteTo s0 full_sink)) in
   let s2 := fst (snd (ErrorStream.WriteTo s1 empty_buffer)) in
   Err s1 = Some (errorString "short write")
   /\ fst (ErrorStream.WriteTo s1 empty_buffer) = (0%Z, None)
   /\ Err s2 = None)
  /\
  (let s0 := NewErrorStream
               {| wire := [Doc (message_record "a");
                           Broken (SyntaxError "invalid character")];
                  as_Closer := Some quiet_closer |} in
   let s1 := fst (snd (ErrorStream.WriteTo s0 full_sink)) in
   let s2 := fst (snd (ErrorStream.WriteTo s1 empty_buffer)) in
   Err s1 = Some (errorString "short write")
   /\ Err s2 = Some (SyntaxError "invalid character")).
Proof.
  vm_compute. repeat split.
Qed.

(** C5, as stated, fails.  On an open stream with one record, [WriteTo]
    into a sink with no room ends with the sink's error stored and the
    stream not closed; calling [Next] until false ends with no error and
    the stream closed. *)
Lemma WriteTo_differs_from_Next :
  let s := NewErrorStream {| wire := [Doc (message_record "a")];
                             as_Closer := Some quiet_closer |} in
  let after_WriteTo := fst (snd (ErrorStream.WriteTo s full_sink)) in
  let after_Next :=
    Next_until_false ErrorStream.Unmarshal ErrorStream.toEvent s in
  (closed after_WriteTo, err after_WriteTo)
    = (false, Some (errorString "short write"))
  /\ (closed after_Next, err after_Next) = (true, None)
  /\ (closed after_WriteTo, err after_WriteTo)
     <> (closed after_Next, err after_Next).
Proof.
  vm_compute. repeat split. discriminate.
Qed.

(** Two records relayed into a buffer, and into a sink with room for the
    first of them only. *)
Lemma WriteTo_as_Next_until_false_witness :
  let s := NewErrorStream
             {| wire := [Doc (message_record "a"); Doc (message_record "b")];
                as_Closer := Some quiet_closer |} in
  (let after_WriteTo := fst (snd (ErrorStream.WriteTo s empty_buffer)) in
   let after_Next :=
     Next_until_false ErrorStream.Unmarshal ErrorStream.toEvent s in
   after_WriteTo = set_event (event s) after_Next
   /\ closed after_WriteTo = closed after_Next
   /\ err after_WriteTo = err after_Next
   /\ decoder after_WriteTo = decoder after_Next
   /\ closer after_WriteTo = closer after_Next
   /\ fst (ErrorStream.Next after_Next) = false)
  /\
  (let r := ErrorStream.WriteTo s
              {| room := 20; taken := []; full := errorString "short write" |} in
   snd (fst r) = Some (errorString "short write")
   /\ err (fst (snd r)) = Some (errorString "short write")
   /\ closed (fst (snd r)) = false
   /\ closer (fst (snd r)) = Some quiet_closer
   /\ pending (decoder (fst (snd r))) = []).
Proof.
  intros s. split.
  - exact (@WriteTo_as_Next_until_false _ _ ErrorStream.Unmarshal
             ErrorStream.Marshal ErrorStream.toEvent Buffer _ s empty_buffer
             eq_refl eq_refl).
  - exact (@WriteTo_as_Next_until_false _ _ ErrorStream.Unmarshal
             ErrorStream.Marshal ErrorStream.toEvent LimitedWriter _ s
             {| room := 20; taken := []; full := errorString "short write" |}
             eq_refl eq_refl).
Defined.



(** C6 (defect). [Err()], the read of the stored error, does not give the
    error that occurred once [WriteTo] has run again.  A first [WriteTo]
    meets a sink with no room: the error occurs and [Err()] gives it.  A
    second [WriteTo] finds the end of the input and stores what [Close]
    returned: [Err()] is nil, and so is what [Close] returns on the stream,
    closed by now.  With a broken record left on the wire [Err()] gives
    the decode error of the second call, not the first error.  This is the
    defect of C4, seen through the error query. *)
Theorem Err_forgets_first_error :
  (let s0 := NewErrorStream {| wire := [Doc (message_record "a")];
                               as_Closer := Some quiet_closer |} in
   let s1 := fst (snd (ErrorStream.WriteTo s0 full_sink)) in
   let s2 := fst (snd (ErrorStream.WriteTo s1 empty_buffer)) in
   Err s0 = None
   /\ snd (fst (ErrorStream.WriteTo s0 full_sink))
      = Some (errorString "short write")
   /\ Err s1 = Some (errorString "short write")
   /\ Err s2 = None
   /\ closed s2 = true
   /\ fst (ErrorStream.Close s2) = None)
  /\
  (let s0 := NewErrorStream
               {| wire := [Doc (message_record "a");
                           Broken (SyntaxError "invalid character")];
                  as_Closer := Some quiet_closer |} in
   let s1 := fst (snd (ErrorStream.WriteTo s0 full_sink)) in
   let s2 := fst (snd (ErrorStream.WriteTo s1 empty_buffer)) in
   Err s1 = Some (errorString "short write")
   /\ Err s2 = Some (SyntaxError "invalid character")
   /\ Err s2 <> Err s1).
Proof.
  vm_compute. repeat split. discriminate.
Qed.

(** C9, as stated, fails.  [response.time] is a [time.Duration], an
    [int64]; the string ["15ms"] does not fit it, [Next] returns false and
    the type mismatch is the stored error. *)
Lemma string_duration_is_rejected :
  let s := NewAuditStream {| wire := [Doc (audit_record (JString "15ms"))];
                             as_Closer := None |} in
  fst (AuditStream.Next s) = false
  /\ Err (snd (AuditStream.Next s))
     = Some (UnmarshalTypeError "string" "response.time")
  /\ AuditStream.Event (snd (AuditStream.Next s)) = AuditStream.zeroEvent.
Proof.
  vm_compute. repeat split.
Qed.

(** C9 (amended). The audit record of the scenario with [response.time]
    given as a count of nanoseconds, 15000000, is decoded by [Next], which
    returns true and stores an event whose timestamp, path, address and
    identity are those of the record, whose status code is 200 and whose
    response time is 15ms.  With [response.time] given as a JSON string,
    whatever it holds, [Next] returns false and stores a type mismatch. *)
Theorem audit_record_decodes :
  (let s := NewAuditStream {| wire := [Doc (audit_record (JNumber "15000000"))];
                              as_Closer := None |} in
   fst (AuditStream.Next s) = true
   /\ AuditStream.Event (snd (AuditStream.Next s))
      = {| Timestamp := {| year := 2024%Z; month := 1%Z; day := 1%Z;
                           hour := 0%Z; minute := 0%Z; second := 0%Z;
                           nanosecond := 0%Z; offset := 0%Z |};
           APIPath := "/v1/key/create";
           ClientIP := [x00; x00; x00; x00; x00; x00; x00; x00; x00; x00;
                        xff; xff; x0a; x00; x00; x01];
           ClientIdentity := "abc123";
           StatusCode := 200%Z;
           ResponseTime := (15 * 1000000)%Z |}
   /\ Err (snd (AuditStream.Next s)) = None)
  /\
  (forall d : string,
   let s := NewAuditStream {| wire := [Doc (audit_record (JString d))];
                              as_Closer := None |} in
   fst (AuditStream.Next s) = false
   /\ Err (snd (AuditStream.Next s))
      = Some (UnmarshalTypeError "string" "response.time")).
Proof.
  split.
  - vm_compute. repeat split.
  - intros d. vm_compute. split; reflexivity.
Qed.

(** * Further properties of the code *)

Close Scope string_scope.

Section Further.
Context {Response Event : Type}.
Variable Unmarshal : json -> error + Response.
Variable Marshal : Response -> error + list byte.
Variable toEvent : Response -> Event.
Variable zeroEvent : Event.
Context {W : Type} `{Writer W}.

Let Stream := Stream Event.

Lemma Close_keeps_decoder (s : Stream) : decoder (snd (Close s)) = decoder s.
Proof.
  destruct s as [d [k|] ev e [|]]; unfold Close; simpl; try reflexivity.
  destruct (not_nil e); reflexivity.
Qed.

(** How the loop of [WriteTo] leaves the stream when [Decode] fails. *)
Lemma WriteTo_stop_outcome (e : error) (d : Decoder) (s : Stream)
  (cw : countWriter W) :
  let r := if errors_Is e io_EOF
           then let '(ce, s') := Close (set_decoder d s) in
                ((cw_N cw, ce), (set_err ce s', cw_W cw))
           else ((cw_N cw, Some e),
                 (set_err (Some e) (set_decoder d s), cw_W cw)) in
  snd (fst r) = err (fst (snd r))
  /\ not_nil (err (fst (snd r))) || closed (fst (snd r)) = true
  /\ decoder (fst (snd r)) = d.
Proof.
  destruct (errors_Is e io_EOF); simpl; [|auto].
  pose proof (Close_closed (set_decoder d s)) as Hc.
  pose proof (Close_keeps_decoder (set_decoder d s)) as Hd.
  destruct (Close (set_decoder d s)) as [ce s']. simpl in *.
  rewrite Hc, orb_true_r. auto.
Qed.

Lemma WriteTo_loop_outcome (l : list chunk) :
  forall (s : Stream) (cw : countWriter W),
  pending (decoder s) = l ->
  let r := WriteTo_loop Unmarshal Marshal s cw in
  snd (fst r) = err (fst (snd r))
  /\ not_nil (err (fst (snd r))) || closed (fst (snd r)) = true
  /\ (exists consumed, l = consumed ++ pending (decoder (fst (snd r))))
  /\ decodes (decoder s) <= decodes (decoder (fst (snd r))).
Proof.
  induction l as [|c rest IH]; intros s cw Hp;
    rewrite WriteTo_loop_step; unfold Decode; rewrite Hp.
  - destruct (WriteTo_stop_outcome io_EOF
                {| pending := []; decodes := S (decodes (decoder s)) |} s cw)
      as (Hr & Ht & Hd).
    repeat split; try assumption.
    + exists []. rewrite Hd. reflexivity.
    + rewrite Hd. simpl. lia.
  - destruct c as [v|e].
    + destruct (Unmarshal v) as [e|resp].
      * destruct (WriteTo_stop_outcome e
                    {| pending := rest; decodes := S (decodes (decoder s)) |}
                    s cw) as (Hr & Ht & Hd).
        repeat split; try assumption.
        -- exists [Doc v]. rewrite Hd. reflexivity.
        -- rewrite Hd. simpl. lia.
      * destruct (Encode Marshal cw resp) as [[e|] cw'].
        -- simpl. repeat split. exists [Doc v]. reflexivity. lia.
        -- destruct (IH (set_decoder
                           {| pending := rest;
                              decodes := S (decodes (decoder s)) |} s)
                        cw' eq_refl) as (Hr & Ht & [consumed Hc] & Hd).
           repeat split; try assumption.
           ++ exists (Doc v :: consumed). simpl. rewrite <- Hc. reflexivity.
           ++ simpl in Hd. lia.
    + destruct (WriteTo_stop_outcome e
                  {| pending := Broken e :: rest;
                     decodes := S (decodes (decoder s)) |} s cw)
        as (Hr & Ht & Hd).
      repeat split; try assumption.
      * exists []. rewrite Hd. reflexivity.
      * rewrite Hd. simpl. lia.
Qed.

(** X1. [WriteTo] returns the error it leaves in the stream: the error
    of the call and the stored error are the same after every call. *)
Theorem WriteTo_returns_stored_error (s : Stream) (w : W) :
  snd (fst (WriteTo Unmarshal Marshal s w))
  = err (fst (snd (WriteTo Unmarshal Marshal s w))).
Proof.
  unfold WriteTo.
  apply (@WriteTo_loop_outcome (pending (decoder s)) s _ eq_refl).
Qed.

(** X2. After [WriteTo] the stream is finished, whatever state it was
    called in: it is closed or holds an error, and [Next] returns false
    without touching it. *)
Theorem WriteTo_finishes_stream (s : Stream) (w : W) :
  let s' := fst (snd (WriteTo Unmarshal Marshal s w)) in
  (closed s' = true \/ err s' <> None)
  /\ Next Unmarshal toEvent s' = (false, s').
Proof.
  intros s'.
  destruct (@WriteTo_loop_outcome (pending (decoder s)) s
              {| cw_W := w; cw_N := 0 |} eq_refl) as (_ & Ht & _).
  fold (WriteTo Unmarshal Marshal s w) in Ht. fold s' in Ht.
  split; [|apply Next_stopped, Ht].
  destruct (closed s'); [left; reflexivity|right].
  destruct (err s'); [discriminate|discriminate].
Qed.

(** X3. A [Next] that returns true has consumed exactly one record, the
    first on the wire; that record decodes, its mapping is the stored
    event, and the stream is still open with its closer untouched. *)
Theorem Next_true_inversion (s s' : Stream) :
  Next Unmarshal toEvent s = (true, s') ->
  err s = None /\ closed s = false
  /\ exists v resp,
       pending (decoder s) = Doc v :: pending (decoder s')
       /\ Unmarshal v = inr resp
       /\ event s' = toEvent resp
       /\ err s' = None /\ closed s' = false /\ closer s' = closer s
       /\ decodes (decoder s') = S (decodes (decoder s)).
Proof.
  unfold Next. intros Hn.
  destruct (err s) as [e0|] eqn:He; [discriminate|].
  destruct (closed s) eqn:Hc; [discriminate|]. simpl in Hn.
  unfold Decode in Hn.
  destruct (pending (decoder s)) as [|[v|e] rest] eqn:Hp; simpl in Hn.
  - destruct (Close _); discriminate.
  - destruct (Unmarshal v) as [e|resp] eqn:Hu.
    + destruct (errors_Is e io_EOF); [destruct (Close _)|]; discriminate.
    + injection Hn as <-. simpl. repeat split.
      exists v, resp. rewrite He, Hc. auto 10.
  - destruct (errors_Is e io_EOF); [destruct (Close _)|]; discriminate.
Qed.

Lemma Next_false_outcome (s s' : Stream) :
  Next Unmarshal toEvent s = (false, s') ->
  event s' = event s
  /\ not_nil (err s') || closed s' = true.
Proof.
  unfold Next. destruct (not_nil (err s) || closed s) eqn:Hs.
  - intros Hn. injection Hn as <-. auto.
  - destruct (Decode Unmarshal (decoder s)) as [[e|resp] d]; [|discriminate].
    destruct (errors_Is e io_EOF).
    + pose proof (Close_closed (set_decoder d s)) as Hc.
      pose proof (Close_event (set_decoder d s)) as Hev.
      destruct (Close (set_decoder d s)) as [ce s1]. simpl in *.
      intros Hn. injection Hn as <-. simpl. rewrite Hc, orb_true_r. auto.
    + intros Hn. injection Hn as <-. auto.
Qed.

(** X4. Once [Next] has returned false it returns false for ever: the
    failing call leaves the stored event as it was, and every later call
    returns false and changes nothing. *)
Theorem Next_false_is_final (s s' : Stream) (n : nat) :
  Next Unmarshal toEvent s = (false, s') ->
  Event_ s' = Event_ s
  /\ run_Next Unmarshal toEvent n s' = (repeat (false, Event_ s) n, s').
Proof.
  intros Hn. destruct (Next_false_outcome s Hn) as [Hev Ht].
  unfold Event_. split; [exact Hev|].
  rewrite (run_Next_stopped Unmarshal toEvent n s' Ht), Hev. reflexivity.
Qed.

Lemma Next_forward (s : Stream) :
  (exists consumed,
     pending (decoder s)
     = consumed ++ pending (decoder (snd (Next Unmarshal toEvent s))))
  /\ decodes (decoder s) <= decodes (decoder (snd (Next Unmarshal toEvent s))).
Proof.
  unfold Next. destruct (not_nil (err s) || closed s).
  - simpl. split; [exists []; reflexivity|lia].
  - assert (Hstop : forall e d,
      decoder (snd (if errors_Is e io_EOF
                    then let '(ce, s0) := Close (set_decoder d s) in
                         (false, set_err ce s0)
                    else (false, set_err (Some e) (set_decoder d s)))) = d).
    { intros e d. destruct (errors_Is e io_EOF); [|reflexivity].
      pose proof (Close_keeps_decoder (set_decoder d s)) as Hd.
      destruct (Close (set_decoder d s)). exact Hd. }
    unfold Decode. destruct (pending (decoder s)) as [|[v|e] rest].
    + rewrite Hstop. split; [exists []; reflexivity|simpl; lia].
    + destruct (Unmarshal v) as [e|resp].
      * rewrite Hstop. split; [exists [Doc v]; reflexivity|simpl; lia].
      * simpl. split; [exists [Doc v]; reflexivity|lia].
    + rewrite Hstop. split; [exists []; reflexivity|simpl; lia].
Qed.

(** X5. Reading only goes forward: over any sequence of [Next], [Close]
    and [WriteTo] calls, what is left on the wire is a suffix of what was
    there before, and the count of decoder calls never goes down. *)
Theorem reading_is_forward_only (cs : list (call W)) (s : Stream) :
  let s' := perform_all Unmarshal Marshal toEvent cs s in
  (exists consumed, pending (decoder s) = consumed ++ pending (decoder s'))
  /\ decodes (decoder s) <= decodes (decoder s').
Proof.
  unfold perform_all. revert s.
  induction cs as [|c cs IH]; intros s; simpl.
  - split; [exists []; reflexivity|lia].
  - destruct (IH (perform Unmarshal Marshal toEvent s c))
      as [[consumed2 Hp2] Hd2].
    assert (Hstep :
      (exists consumed,
         pending (decoder s)
         = consumed ++ pending (decoder (perform Unmarshal Marshal toEvent s c)))
      /\ decodes (decoder s)
         <= decodes (decoder (perform Unmarshal Marshal toEvent s c))).
    { destruct c as [| |w]; simpl.
      - apply Next_forward.
      - rewrite Close_keeps_decoder. split; [exists []; reflexivity|lia].
      - destruct (@WriteTo_loop_outcome (pending (decoder s)) s
                    {| cw_W := w; cw_N := 0 |} eq_refl) as (_ & _ & Hc & Hd).
        split; assumption. }
    destruct Hstep as [[consumed1 Hp1] Hd1]. split; [|lia].
    exists (consumed1 ++ consumed2). rewrite <- app_assoc, <- Hp2. exact Hp1.
Qed.

(** X6. The closed flag and the resource agree: over any sequence of
    calls on a new stream, the closer has been called exactly once when
    the stream is closed and not at all while it is open; a reader that is
    no closer stays none. *)
Theorem closer_tracks_closed (cs : list (call W)) (r : Reader) :
  let s' := perform_all Unmarshal Marshal toEvent cs (NewStream zeroEvent r) in
  closer s' = match as_Closer r with
              | Some k => Some (if closed s' then called k else k)
              | None => None
              end.
Proof.
  set (P := fun s : Stream =>
    closer s = match as_Closer r with
               | Some k => Some (if closed s then called k else k)
               | None => None
               end).
  assert (Hclose : forall s, P s -> P (snd (Close s))).
  { unfold P. intros [d c ev e cl] Hs. simpl in Hs. subst c.
    destruct cl; unfold Close; simpl; [reflexivity|].
    destruct (as_Closer r) as [k|]; simpl; [|reflexivity].
    destruct (not_nil e); reflexivity. }
  assert (Hcall : forall s c, P s -> P (perform Unmarshal Marshal toEvent s c)).
  { intros s c Hs. destruct c as [| |w]; simpl.
    - apply Next_preserves; auto.
    - apply Hclose, Hs.
    - unfold WriteTo.
      apply (WriteTo_loop_preserves Unmarshal Marshal P)
        with (l := pending (decoder s)); auto. }
  assert (Hall : forall s, P s -> P (perform_all Unmarshal Marshal toEvent cs s)).
  { unfold perform_all. induction cs as [|c cs' IH]; intros s Hs; simpl; auto. }
  apply Hall. unfold P. simpl. destruct (as_Closer r); reflexivity.
Qed.

(** X7. On a well-formed input of N records read from a closer, [Next]
    returns true N times and then false; the false call closes the reader
    once and stores what its close returned, failure included.  A [Close]
    after that returns the same error and changes nothing. *)
Theorem Next_stores_close_error (docs : list json) (rs : list Response)
  (k : Closer) (extra : nat) :
  map Unmarshal docs = map inr rs ->
  let s0 := NewStream zeroEvent {| wire := map Doc docs; as_Closer := Some k |} in
  let run := run_Next Unmarshal toEvent (length docs + S extra) s0 in
  fst run = map (fun r => (true, toEvent r)) rs
            ++ repeat (false, last (map toEvent rs) zeroEvent) (S extra)
  /\ Err (snd run) = close_err k
  /\ closed (snd run) = true
  /\ closer (snd run) = Some (called k)
  /\ Close (snd run) = (close_err k, snd run).
Proof.
  intros Hu s0 run. subst run. rewrite run_Next_app.
  destruct (run_Next_records Unmarshal toEvent docs rs [] s0 Hu eq_refl eq_refl)
    as (s' & Hrun & He & Hc & Hcl & Hp & _ & Hev).
  { simpl. rewrite app_nil_r. reflexivity. }
  rewrite Hrun. cbn [fst snd]. cbn [run_Next].
  rewrite (Next_end_of_input Unmarshal toEvent s' He Hc Hp).
  destruct s' as [d c ev e cl]. simpl in He, Hc, Hcl, Hp, Hev. subst.
  unfold Close at 1 2. simpl.
  rewrite run_Next_stopped by (simpl; apply orb_true_r).
  simpl. unfold Event_, Err. simpl. repeat split.
Qed.

(** X8. A read error that wraps [io.EOF] is taken for the end of the
    input: [Next] returns false, closes the stream and stores what the close
    returned; the read error itself is not kept. *)
Theorem Next_takes_wrapped_EOF_as_end (s : Stream) (e : error)
  (rest : list chunk) :
  err s = None -> closed s = false ->
  pending (decoder s) = Broken e :: rest ->
  errors_Is e io_EOF = true ->
  fst (Next Unmarshal toEvent s) = false
  /\ closed (snd (Next Unmarshal toEvent s)) = true
  /\ Err (snd (Next Unmarshal toEvent s))
     = match closer s with
       | Some k => close_err k
       | None => None
       end.
Proof.
  intros He Hc Hp Heof. unfold Next, Decode. rewrite He, Hc, Hp. simpl.
  rewrite Heof.
  destruct s as [d [k|] ev er cl]; simpl in *; subst; unfold Close; simpl;
    auto.
Qed.

(** X9. [WriteTo] over N valid records, into a sink that takes every
    write: it returns the bytes written and what the close returned (nil
    when the reader is no closer), and leaves the stream closed, the input
    used up, the closer called once and that same error stored. *)
Theorem WriteTo_drains_and_closes (docs : list json) (rs : list Response)
  (bs : list (list byte)) (c : option Closer) (w : W) :
  accepts_all W ->
  map Unmarshal docs = map inr rs ->
  map Marshal rs = map inr bs ->
  (Z.of_nat (list_sum (map encoded_size bs)) < 2 ^ 63)%Z ->
  let r := WriteTo Unmarshal Marshal
             (NewStream zeroEvent {| wire := map Doc docs; as_Closer := c |}) w in
  let ce := match c with
            | Some k => close_err k
            | None => None
            end in
  fst r = (Z.of_nat (list_sum (map encoded_size bs)), ce)
  /\ closed (fst (snd r)) = true
  /\ Err (fst (snd r)) = ce
  /\ pending (decoder (fst (snd r))) = []
  /\ closer (fst (snd r)) = option_map called c.
Proof.
  intros Hacc Hu Hm Hsum r ce. subst r ce. unfold WriteTo.
  destruct (WriteTo_loop_records Unmarshal Marshal docs rs bs []
              (NewStream zeroEvent {| wire := map Doc docs; as_Closer := c |})
              {| cw_W := w; cw_N := 0 |} Hacc Hu Hm)
    as (d' & cw' & Hd' & Hloop & Hn'); simpl; try lia.
  { rewrite app_nil_r. reflexivity. }
  rewrite Hloop, WriteTo_loop_step. unfold Decode. simpl. rewrite Hd'.
  simpl. rewrite Hn'. unfold Err, Close. simpl.
  destruct c as [k|]; simpl; repeat split.
Qed.

Lemma write_all_countWriter (ps : list (list byte)) :
  forall cw : countWriter W,
  fst (write_all cw ps) = fst (write_all (cw_W cw) ps)
  /\ cw_W (snd (write_all cw ps)) = snd (write_all (cw_W cw) ps)
  /\ (Forall (fun n => (0 <= n)%Z) (fst (write_all (cw_W cw) ps)) ->
      (0 <= cw_N cw)%Z ->
      (cw_N cw + sum_Z (fst (write_all (cw_W cw) ps)) < 2 ^ 63)%Z ->
      cw_N (snd (write_all cw ps))
      = (cw_N cw + sum_Z (fst (write_all (cw_W cw) ps)))%Z).
Proof.
  induction ps as [|p ps IH]; intros cw; simpl.
  - repeat split. intros _ _ _. unfold sum_Z. simpl. lia.
  - change (@Write (countWriter W) countWriter_Writer cw p)
      with (countWriter_Write cw p).
    unfold countWriter_Write.
    destruct (Write (cw_W cw) p) as [[n e] inner] eqn:Hw.
    specialize (IH {| cw_W := inner; cw_N := wrap64 (cw_N cw + wrap64 n) |}).
    simpl in IH. destruct IH as (Hns & Hw' & Hcount).
    destruct (write_all {| cw_W := inner;
                           cw_N := wrap64 (cw_N cw + wrap64 n) |} ps)
      as [ns cw2].
    destruct (write_all inner ps) as [ns' inner2]. simpl in *. subst.
    repeat split.
    intros Hpos Hlo Hhi. apply Forall_cons_iff in Hpos as [Hn Hrest].
    unfold sum_Z in *. simpl in Hhi.
    assert (Hsum : (0 <= fold_right Z.add 0 ns')%Z).
    { clear - Hrest. induction Hrest; simpl; lia. }
    assert (Hn64 : wrap64 n = n) by (apply wrap64_small; lia).
    assert (Hacc : wrap64 (cw_N cw + wrap64 n) = (cw_N cw + n)%Z).
    { rewrite Hn64. apply wrap64_small. lia. }
    rewrite Hacc in Hcount. rewrite Hcount; try assumption; simpl; lia.
Qed.

(** X10. [countWriter] hands every write to the sink unchanged and adds
    up what the sink reports, also for writes that fail or are cut short:
    after any run of writes its count is the count before plus the bytes
    reported (inside the range of [int64]). *)
Theorem countWriter_counts_every_write (cw : countWriter W)
  (ps : list (list byte)) :
  Forall (fun n => (0 <= n)%Z) (fst (write_all (cw_W cw) ps)) ->
  (0 <= cw_N cw)%Z ->
  (cw_N cw + sum_Z (fst (write_all (cw_W cw) ps)) < 2 ^ 63)%Z ->
  fst (write_all cw ps) = fst (write_all (cw_W cw) ps)
  /\ cw_W (snd (write_all cw ps)) = snd (write_all (cw_W cw) ps)
  /\ cw_N (snd (write_all cw ps))
     = (cw_N cw + sum_Z (fst (write_all (cw_W cw) ps)))%Z.
Proof.
  intros Hpos Hlo Hhi.
  destruct (write_all_countWriter ps cw) as (Hns & Hw & Hcount). auto.
Qed.

End Further.

(** ** What reaches the sink *)

Section Sinks.
Context {Response Event : Type}.
Variable Unmarshal : json -> error + Response.
Variable Marshal : Response -> error + list byte.

Let Stream := Stream Event.

(** Where the loop of [WriteTo] stops on a [Decode] error, the sink is as
    it was. *)
Lemma WriteTo_stop_sink {W} (e : error) (d : Decoder) (s : Stream)
  (cw : countWriter W) :
  snd (snd (if errors_Is e io_EOF
            then let '(ce, s') := Close (set_decoder d s) in
                 ((cw_N cw, ce), (set_err ce s', cw_W cw))
            else ((cw_N cw, Some e),
                  (set_err (Some e) (set_decoder d s), cw_W cw))))
  = cw_W cw.
Proof.
  destruct (errors_Is e io_EOF); [destruct (Close _)|]; reflexivity.
Qed.

Lemma Encode_into_Buffer (cw : countWriter Buffer) (resp : Response)
  (b : list byte) :
  Marshal resp = inr b ->
  exists n,
    Encode Marshal cw resp
    = (None, {| cw_W := {| buf := buf (cw_W cw) ++ line b |}; cw_N := n |}).
Proof.
  intros Hm. unfold Encode. rewrite Hm. eexists. reflexivity.
Qed.

Lemma WriteTo_loop_into_Buffer (docs : list json) :
  forall (rs : list Response) (bs : list (list byte)) (rest : list chunk)
         (s : Stream) (cw : countWriter Buffer),
  map Unmarshal docs = map inr rs -> map Marshal rs = map inr bs ->
  pending (decoder s) = map Doc docs ++ rest ->
  relay_ends Unmarshal rest = true ->
  snd (snd (WriteTo_loop Unmarshal Marshal s cw))
  = {| buf := buf (cw_W cw) ++ concat (map line bs) |}.
Proof.
  induction docs as [|v docs IH]; intros rs bs rest s cw Hu Hm Hp Hend;
    rewrite WriteTo_loop_step; unfold Decode; rewrite Hp.
  - destruct rs; [|discriminate]. destruct bs; [|discriminate]. simpl.
    rewrite app_nil_r.
    destruct rest as [|[v|e] rest]; simpl in Hend.
    + rewrite WriteTo_stop_sink. destruct (cw_W cw); reflexivity.
    + destruct (Unmarshal v) as [e|resp]; [|discriminate].
      rewrite WriteTo_stop_sink. destruct (cw_W cw); reflexivity.
    + rewrite WriteTo_stop_sink. destruct (cw_W cw); reflexivity.
  - destruct rs as [|r rs]; [discriminate|].
    destruct bs as [|b bs]; [discriminate|].
    simpl in Hu, Hm. injection Hu as Hv Hu. injection Hm as Hb Hm.
    simpl. rewrite Hv.
    destruct (Encode_into_Buffer cw Hb) as [n Henc]. rewrite Henc.
    rewrite (IH rs bs rest
               (set_decoder {| pending := map Doc docs ++ rest;
                               decodes := S (decodes (decoder s)) |} s)
               _ Hu Hm eq_refl Hend).
    simpl. rewrite <- app_assoc. reflexivity.
Qed.

(** X11. [WriteTo] relays the records in wire order, one line each: a
    buffer sink ends up with the marshalled form of every record before
    the first chunk that is not one, each followed by a newline, and
    nothing else. *)
Theorem WriteTo_relays_in_order (docs : list json) (rs : list Response)
  (bs : list (list byte)) (rest : list chunk) (s : Stream) (sink : Buffer) :
  map Unmarshal docs = map inr rs ->
  map Marshal rs = map inr bs ->
  pending (decoder s) = map Doc docs ++ rest ->
  relay_ends Unmarshal rest = true ->
  snd (snd (WriteTo Unmarshal Marshal s sink))
  = {| buf := buf sink ++ concat (map line bs) |}.
Proof.
  intros Hu Hm Hp Hend. unfold WriteTo.
  apply (WriteTo_loop_into_Buffer docs rs bs rest s
           {| cw_W := sink; cw_N := 0 |} Hu Hm Hp Hend).
Qed.

Lemma Encode_fits (cw : countWriter LimitedWriter) (resp : Response)
  (b : list byte) :
  Marshal resp = inr b ->
  length (line b) <= room (cw_W cw) ->
  Encode Marshal cw resp
  = (None,
     {| cw_W := {| room := room (cw_W cw) - length (line b);
                   taken := taken (cw_W cw) ++ line b;
                   full := full (cw_W cw) |};
        cw_N := wrap64 (cw_N cw + wrap64 (Z.of_nat (length (line b)))) |}).
Proof.
  intros Hm Hfit. unfold Encode. rewrite Hm.
  cbv beta iota delta [Write countWriter_Writer countWriter_Write
                         LimitedWriter_Writer].
  fold (line b). rewrite (proj2 (Nat.leb_le _ _) Hfit). reflexivity.
Qed.

Lemma Encode_cut_short (cw : countWriter LimitedWriter) (resp : Response)
  (b : list byte) :
  Marshal resp = inr b ->
  room (cw_W cw) < length (line b) ->
  Encode Marshal cw resp
  = (Some (full (cw_W cw)),
     {| cw_W := {| room := 0;
                   taken := taken (cw_W cw) ++ firstn (room (cw_W cw)) (line b);
                   full := full (cw_W cw) |};
        cw_N := wrap64 (cw_N cw + wrap64 (Z.of_nat (room (cw_W cw)))) |}).
Proof.
  intros Hm Hcut. unfold Encode. rewrite Hm.
  cbv beta iota delta [Write countWriter_Writer countWriter_Write
                         LimitedWriter_Writer].
  fold (line b). rewrite (proj2 (Nat.leb_gt _ _) Hcut). reflexivity.
Qed.

Lemma WriteTo_loop_into_LimitedWriter (docs : list json) :
  forall (rs : list Response) (bs : list (list byte)) (rest : list chunk)
         (s : Stream) (cw : countWriter LimitedWriter),
  map Unmarshal docs = map inr rs -> map Marshal rs = map inr bs ->
  pending (decoder s) = map Doc docs ++ rest ->
  room (cw_W cw) < length (concat (map line bs)) ->
  (0 <= cw_N cw)%Z ->
  (cw_N cw + Z.of_nat (room (cw_W cw)) < 2 ^ 63)%Z ->
  let r := WriteTo_loop Unmarshal Marshal s cw in
  fst r = ((cw_N cw + Z.of_nat (room (cw_W cw)))%Z, Some (full (cw_W cw)))
  /\ snd (snd r)
     = {| room := 0;
          taken := taken (cw_W cw)
                   ++ firstn (room (cw_W cw)) (concat (map line bs));
          full := full (cw_W cw) |}
  /\ err (fst (snd r)) = Some (full (cw_W cw))
  /\ closed (fst (snd r)) = closed s
  /\ closer (fst (snd r)) = closer s.
Proof.
  induction docs as [|v docs IH];
    intros rs bs rest s cw Hu Hm Hp Hroom Hlo Hhi.
  - destruct rs; [|discriminate]. destruct bs; [|discriminate].
    simpl in Hroom. lia.
  - destruct rs as [|r rs]; [discriminate|].
    destruct bs as [|b bs]; [discriminate|].
    simpl in Hu, Hm, Hp. injection Hu as Hv Hu. injection Hm as Hb Hm.
    simpl in Hroom. rewrite length_app in Hroom.
    intros res. subst res.
    rewrite WriteTo_loop_step. unfold Decode. rewrite Hp, Hv.
    destruct (le_lt_dec (length (line b)) (room (cw_W cw))) as [Hfit|Hcut].
    + rewrite (Encode_fits cw Hb Hfit).
      set (cw1 := {| cw_W := _; cw_N := _ |}).
      assert (Hn1 : cw_N cw1 = (cw_N cw + Z.of_nat (length (line b)))%Z).
      { subst cw1. simpl.
        rewrite (@wrap64_small (Z.of_nat (length (line b)))) by lia.
        apply wrap64_small. lia. }
      destruct (IH rs bs rest
                  (set_decoder {| pending := map Doc docs ++ rest;
                                  decodes := S (decodes (decoder s)) |} s)
                  cw1 Hu Hm eq_refl)
        as (Hres & Hsink & Herr & Hcl & Hcr).
      { subst cw1. simpl. clear - Hroom Hfit. lia. }
      { rewrite Hn1. lia. }
      { rewrite Hn1. subst cw1. simpl. clear - Hhi Hfit. lia. }
      rewrite Hres, Hsink, Herr, Hcl, Hcr. rewrite Hn1. subst cw1. simpl.
      repeat split.
      * f_equal. lia.
      * f_equal. rewrite <- app_assoc. f_equal.
        rewrite firstn_app.
        rewrite (@firstn_all2 _ (room (cw_W cw)) (line b) Hfit). reflexivity.
    + rewrite (Encode_cut_short cw Hb Hcut). simpl.
      rewrite (@wrap64_small (Z.of_nat (room (cw_W cw)))) by lia.
      rewrite wrap64_small by lia.
      repeat split.
      f_equal. f_equal. rewrite firstn_app.
      replace (room (cw_W cw) - length (line b)) with 0 by lia.
      simpl. rewrite app_nil_r. reflexivity.
Qed.

(** X12. When the sink runs out of room in the middle of the relay,
    [WriteTo] stops there: it returns the bytes the sink took, the partly
    written record included, and the sink's error, which it also stores;
    the stream is not closed and its closer not called. *)
Theorem WriteTo_counts_partial_write (docs : list json) (rs : list Response)
  (bs : list (list byte)) (rest : list chunk) (s : Stream)
  (sink : LimitedWriter) :
  map Unmarshal docs = map inr rs ->
  map Marshal rs = map inr bs ->
  pending (decoder s) = map Doc docs ++ rest ->
  room sink < length (concat (map line bs)) ->
  (Z.of_nat (room sink) < 2 ^ 63)%Z ->
  let r := WriteTo Unmarshal Marshal s sink in
  fst r = (Z.of_nat (room sink), Some (full sink))
  /\ snd (snd r)
     = {| room := 0;
          taken := taken sink ++ firstn (room sink) (concat (map line bs));
          full := full sink |}
  /\ Err (fst (snd r)) = Some (full sink)
  /\ closed (fst (snd r)) = closed s
  /\ closer (fst (snd r)) = closer s.
Proof.
  intros Hu Hm Hp Hroom Hhi. unfold WriteTo.
  apply (WriteTo_loop_into_LimitedWriter docs rs bs rest s
           {| cw_W := sink; cw_N := 0 |} Hu Hm Hp Hroom); simpl; lia.
Qed.

End Sinks.

(** ** The two record shapes *)

Open Scope string_scope.

Lemma last_map_default {A B} (f : A -> B) (l : list A) (d : A) :
  last (map f l) (f d) = f (last l d).
Proof.
  revert d. induction l as [|a l IH]; intros d; [reflexivity|].
  change (map f (a :: l)) with (f a :: map f l).
  rewrite !last_cons_default. apply IH.
Qed.

Lemma Unmarshal_message_records (ms : list string) :
  map ErrorStream.Unmarshal (map message_record ms)
  = map inr (map (fun m => {| ErrorStream.resp_Message := m |}) ms).
Proof.
  induction ms as [|m ms IH]; [reflexivity|].
  simpl. rewrite IH. reflexivity.
Qed.

(** X13. An [ErrorStream] over the records [{"message": m}] of a list of
    messages gives exactly those messages, in order: one true [Next] per
    message with [Message()] that message, then false, the stream still
    open before the end and not failed. *)
Theorem ErrorStream_yields_messages (ms : list string) (rest : list chunk)
  (c : option Closer) :
  let s0 := NewErrorStream
              {| wire := (map Doc (map message_record ms) ++ rest)%list;
                 as_Closer := c |} in
  let run := run_Next ErrorStream.Unmarshal ErrorStream.toEvent (length ms) s0 in
  map fst (fst run) = repeat true (length ms)
  /\ map (fun step => Message (snd step)) (fst run) = ms
  /\ ErrorStream.Message_ (snd run) = last ms EmptyString
  /\ pending (decoder (snd run)) = rest
  /\ Err (snd run) = None /\ closed (snd run) = false.
Proof.
  intros s0 run.
  destruct (run_Next_records ErrorStream.Unmarshal ErrorStream.toEvent
              (map message_record ms)
              (map (fun m => {| ErrorStream.resp_Message := m |}) ms)
              rest s0 (Unmarshal_message_records ms) eq_refl eq_refl eq_refl)
    as (s' & Hrun & He & Hc & _ & Hp & _ & Hev).
  rewrite length_map in Hrun. subst run. rewrite Hrun. cbn [fst snd].
  rewrite !map_map. cbn [fst snd ErrorStream.toEvent Message].
  repeat split; try assumption.
  - clear. induction ms as [|m ms IH]; simpl; [reflexivity|].
    rewrite IH. reflexivity.
  - apply map_id.
  - unfold ErrorStream.Message_. rewrite Hev, map_map.
    change (event s0)
      with (ErrorStream.toEvent {| ErrorStream.resp_Message := EmptyString |}).
    rewrite (last_map_default
               (fun m => ErrorStream.toEvent {| ErrorStream.resp_Message := m |})).
    reflexivity.
Qed.

Lemma store_members_without_message (ms : list (string * json)) :
  forall (cur : ErrorStream.Response) (saved : option error),
  forallb (fun kv => negb (names (fst kv) "message")) ms = true ->
  store_members ErrorStream.member ms cur saved = inr (cur, saved).
Proof.
  induction ms as [|[key v] ms IH]; intros cur saved Hno; [reflexivity|].
  simpl in Hno. apply andb_prop in Hno as [Hkey Hno].
  simpl. unfold ErrorStream.member at 1.
  destruct (names key "message"); [discriminate|].
  apply IH, Hno.
Qed.

(** X14. A record with no [message] member is no error for an
    [ErrorStream]: whatever other members the object has, [Next] returns
    true and the event has the empty message. *)
Theorem ErrorStream_missing_message (ms : list (string * json))
  (rest : list chunk) (c : option Closer) :
  forallb (fun kv => negb (names (fst kv) "message")) ms = true ->
  let s := NewErrorStream {| wire := Doc (JObject ms) :: rest; as_Closer := c |} in
  fst (ErrorStream.Next s) = true
  /\ ErrorStream.Event (snd (ErrorStream.Next s)) = {| Message := EmptyString |}
  /\ Err (snd (ErrorStream.Next s)) = None.
Proof.
  intros Hno s. subst s.
  unfold ErrorStream.Next, Next, NewErrorStream, NewStream, Decode. simpl.
  unfold ErrorStream.Unmarshal, unmarshal_struct, store_struct.
  rewrite (store_members_without_message ms _ _ Hno). simpl.
  repeat split.
Qed.

(** X15. What an [ErrorStream] makes of the value of [message]: a string
    is the event's message, [null] leaves the message empty, and a value
    of any other kind is a decode error naming that kind, with no event
    stored. *)
Theorem ErrorStream_message_kinds (v : json) (rest : list chunk)
  (c : option Closer) :
  let s := NewErrorStream
             {| wire := Doc (JObject [("message", v)]) :: rest;
                as_Closer := c |} in
  match v with
  | JString m =>
      fst (ErrorStream.Next s) = true
      /\ ErrorStream.Message_ (snd (ErrorStream.Next s)) = m
  | JNull =>
      fst (ErrorStream.Next s) = true
      /\ ErrorStream.Message_ (snd (ErrorStream.Next s)) = EmptyString
  | _ =>
      fst (ErrorStream.Next s) = false
      /\ Err (snd (ErrorStream.Next s))
         = Some (UnmarshalTypeError (kind_of v) "message")
      /\ ErrorStream.Event (snd (ErrorStream.Next s)) = ErrorStream.zeroEvent
  end.
Proof.
  destruct v; simpl; repeat split.
Qed.

Ltac read_audit_record :=
  repeat (cbv - [ParseRFC3339 ParseIP ParseInt64 String.append];
          repeat match goal with
                 | Heq : ?x = _ |- context [?x] => rewrite Heq
                 end).

(** X16. How [AuditStream.Next] maps a record: the outer [time] is the
    timestamp, [request.ip], [request.path] and [request.identity] are the
    client address, the API path and the identity, [response.code] is the
    status code and the inner [time], a count of nanoseconds, the response
    time. *)
Theorem AuditStream_maps_fields (time ip path identity code duration : string)
  (t : Time) (addr : IP) (status : Z) (elapsed : Duration)
  (rest : list chunk) (c : option Closer) :
  ParseRFC3339 time = Some t ->
  ParseIP ip = Some addr ->
  ParseInt64 code = Some status ->
  ParseInt64 duration = Some elapsed ->
  let s := NewAuditStream
             {| wire := Doc (audit_json time ip path identity code duration)
                        :: rest;
                as_Closer := c |} in
  fst (AuditStream.Next s) = true
  /\ AuditStream.Event (snd (AuditStream.Next s))
     = {| Timestamp := t; APIPath := path; ClientIP := addr;
          ClientIdentity := identity; StatusCode := status;
          ResponseTime := elapsed |}
  /\ Err (snd (AuditStream.Next s)) = None.
Proof.
  intros Ht Hip Hcode Hdur s. subst s.
  destruct ip as [|a ip]; [vm_compute in Hip; discriminate|].
  read_audit_record. repeat split.
Qed.

(** X17. For an audit record whose timestamp and address read, what
    decides is the two numbers: [AuditStream.Next] returns true exactly
    when the status code and the response time are integer literals in the
    range of [int64]; when it returns false an error is stored and the
    stored event is still the zero event. *)
Theorem AuditStream_accepts (time ip path identity code duration : string)
  (t : Time) (addr : IP) (rest : list chunk) (c : option Closer) :
  ParseRFC3339 time = Some t ->
  ParseIP ip = Some addr ->
  let s := NewAuditStream
             {| wire := Doc (audit_json time ip path identity code duration)
                        :: rest;
                as_Closer := c |} in
  let reads {A} (x : option A) :=
    match x with
    | Some _ => true
    | None => false
    end in
  fst (AuditStream.Next s)
  = reads (ParseInt64 code) && reads (ParseInt64 duration)
  /\ (fst (AuditStream.Next s) = false ->
      Err (snd (AuditStream.Next s)) <> None
      /\ AuditStream.Event (snd (AuditStream.Next s)) = AuditStream.zeroEvent).
Proof.
  intros Ht Hip s reads. subst s reads.
  destruct ip as [|a ip]; [vm_compute in Hip; discriminate|].
  destruct (ParseInt64 code) as [status|] eqn:Hcode;
    destruct (ParseInt64 duration) as [elapsed|] eqn:Hdur;
    read_audit_record;
    (split; [reflexivity|];
     intros Hf; first [discriminate Hf | split; [discriminate|reflexivity]]).
Qed.

(** ** The further properties on concrete inputs *)

Lemma Next_true_inversion_witness :
  let s := NewErrorStream
             {| wire := [Doc (message_record "a"); Doc (message_record "b")];
                as_Closer := Some quiet_closer |} in
  let s' := snd (ErrorStream.Next s) in
  err s = None /\ closed s = false
  /\ exists v resp,
       pending (decoder s) = Doc v :: pending (decoder s')
       /\ ErrorStream.Unmarshal v = inr resp
       /\ event s' = ErrorStream.toEvent resp
       /\ err s' = None /\ closed s' = false /\ closer s' = closer s
       /\ decodes (decoder s') = S (decodes (decoder s)).
Proof.
  apply (@Next_true_inversion _ _ ErrorStream.Unmarshal ErrorStream.toEvent).
  reflexivity.
Defined.

Lemma Next_false_is_final_witness :
  let s := NewErrorStream
             {| wire := [Broken (SyntaxError "invalid character");
                         Doc (message_record "b")];
                as_Closer := Some quiet_closer |} in
  let s' := snd (ErrorStream.Next s) in
  Event_ s' = Event_ s
  /\ run_Next ErrorStream.Unmarshal ErrorStream.toEvent 2 s'
     = (repeat (false, Event_ s) 2, s').
Proof.
  apply (@Next_false_is_final _ _ ErrorStream.Unmarshal ErrorStream.toEvent).
  reflexivity.
Defined.

(** A reader whose close fails. *)
Lemma Next_stores_close_error_witness :
  let k := {| close_err := Some (errorString "close failed");
              close_calls := 0 |} in
  let run := run_Next ErrorStream.Unmarshal ErrorStream.toEvent 2
               (NewErrorStream {| wire := [Doc (message_record "a")];
                                  as_Closer := Some k |}) in
  fst run = [(true, {| Message := "a" |}); (false, {| Message := "a" |})]
  /\ Err (snd run) = Some (errorString "close failed")
  /\ closed (snd run) = true
  /\ closer (snd run) = Some (called k)
  /\ Close (snd run) = (Some (errorString "close failed"), snd run).
Proof.
  apply (@Next_stores_close_error _ _ ErrorStream.Unmarshal ErrorStream.toEvent
           ErrorStream.zeroEvent [message_record "a"]
           [{| ErrorStream.resp_Message := "a" |}]
           {| close_err := Some (errorString "close failed");
              close_calls := 0 |} 0).
  reflexivity.
Defined.

Lemma Next_takes_wrapped_EOF_as_end_witness :
  let s := NewErrorStream
             {| wire := [Broken (wrapError "read" io_EOF);
                         Doc (message_record "a")];
                as_Closer := Some quiet_closer |} in
  fst (ErrorStream.Next s) = false
  /\ closed (snd (ErrorStream.Next s)) = true
  /\ Err (snd (ErrorStream.Next s)) = None.
Proof.
  apply (@Next_takes_wrapped_EOF_as_end _ _ ErrorStream.Unmarshal
           ErrorStream.toEvent
           (NewErrorStream
              {| wire := [Broken (wrapError "read" io_EOF);
                          Doc (message_record "a")];
                 as_Closer := Some quiet_closer |})
           (wrapError "read" io_EOF) [Doc (message_record "a")]);
    reflexivity.
Defined.

Lemma WriteTo_drains_and_closes_witness :
  let k := {| close_err := Some (errorString "close failed");
              close_calls := 0 |} in
  let r := ErrorStream.WriteTo
             (NewErrorStream
                {| wire := [Doc (message_record "a"); Doc (message_record "b")];
                   as_Closer := Some k |})
             empty_buffer in
  fst r = (32%Z, Some (errorString "close failed"))
  /\ closed (fst (snd r)) = true
  /\ Err (fst (snd r)) = Some (errorString "close failed")
  /\ pending (decoder (fst (snd r))) = []
  /\ closer (fst (snd r)) = Some (called k).
Proof.
  apply (@WriteTo_drains_and_closes _ _ ErrorStream.Unmarshal ErrorStream.Marshal
           ErrorStream.zeroEvent Buffer _
           [message_record "a"; message_record "b"]
           [{| ErrorStream.resp_Message := "a" |};
            {| ErrorStream.resp_Message := "b" |}]
           [ErrorStream.encoding {| ErrorStream.resp_Message := "a" |};
            ErrorStream.encoding {| ErrorStream.resp_Message := "b" |}]
           (Some {| close_err := Some (errorString "close failed");
                    close_calls := 0 |})
           empty_buffer).
  - intros w p. reflexivity.
  - reflexivity.
  - reflexivity.
  - reflexivity.
Defined.

(** Three writes into a sink with room for three bytes: two, one and no
    byte taken. *)
Lemma countWriter_counts_every_write_witness :
  let sink := {| room := 3; taken := []; full := errorString "short write" |} in
  let cw := {| cw_W := sink; cw_N := 0 |} in
  let ps := [list_byte_of_string "ab"; list_byte_of_string "cd";
             list_byte_of_string "e"] in
  fst (write_all cw ps) = [2%Z; 1%Z; 0%Z]
  /\ cw_W (snd (write_all cw ps)) = snd (write_all sink ps)
  /\ cw_N (snd (write_all cw ps)) = 3%Z.
Proof.
  intros sink cw ps.
  refine (@countWriter_counts_every_write LimitedWriter _ cw ps _ _ _).
  - simpl. repeat constructor; lia.
  - simpl. lia.
  - reflexivity.
Defined.

Lemma WriteTo_relays_in_order_witness :
  snd (snd (ErrorStream.WriteTo
              (NewErrorStream
                 {| wire := [Doc (message_record "a"); Doc (message_record "b");
                             Broken (SyntaxError "invalid character")];
                    as_Closer := Some quiet_closer |})
              empty_buffer))
  = {| buf := line (ErrorStream.encoding {| ErrorStream.resp_Message := "a" |})
              ++ line (ErrorStream.encoding {| ErrorStream.resp_Message := "b" |})
    |}%list.
Proof.
  apply (@WriteTo_relays_in_order _ ErrorEvent ErrorStream.Unmarshal
           ErrorStream.Marshal
           [message_record "a"; message_record "b"]
           [{| ErrorStream.resp_Message := "a" |};
            {| ErrorStream.resp_Message := "b" |}]
           [ErrorStream.encoding {| ErrorStream.resp_Message := "a" |};
            ErrorStream.encoding {| ErrorStream.resp_Message := "b" |}]
           [Broken (SyntaxError "invalid character")]
           (NewErrorStream
              {| wire := [Doc (message_record "a"); Doc (message_record "b");
                          Broken (SyntaxError "invalid character")];
                 as_Closer := Some quiet_closer |})
           empty_buffer);
    reflexivity.
Defined.

(** Two records of sixteen bytes into a sink with room for twenty. *)
Lemma WriteTo_counts_partial_write_witness :
  let sink := {| room := 20; taken := []; full := errorString "short write" |} in
  let s := NewErrorStream
             {| wire := [Doc (message_record "a"); Doc (message_record "b")];
                as_Closer := Some quiet_closer |} in
  let r := ErrorStream.WriteTo s sink in
  fst r = (20%Z, Some (errorString "short write"))
  /\ snd (snd r)
     = {| room := 0;
          taken := firstn 20
                     (line (ErrorStream.encoding
                              {| ErrorStream.resp_Message := "a" |})
                      ++ line (ErrorStream.encoding
                                 {| ErrorStream.resp_Message := "b" |}))%list;
          full := errorString "short write" |}
  /\ Err (fst (snd r)) = Some (errorString "short write")
  /\ closed (fst (snd r)) = false
  /\ closer (fst (snd r)) = Some quiet_closer.
Proof.
  apply (@WriteTo_counts_partial_write _ ErrorEvent ErrorStream.Unmarshal
           ErrorStream.Marshal
           [message_record "a"; message_record "b"]
           [{| ErrorStream.resp_Message := "a" |};
            {| ErrorStream.resp_Message := "b" |}]
           [ErrorStream.encoding {| ErrorStream.resp_Message := "a" |};
            ErrorStream.encoding {| ErrorStream.resp_Message := "b" |}]
           []
           (NewErrorStream
              {| wire := [Doc (message_record "a"); Doc (message_record "b")];
                 as_Closer := Some quiet_closer |})
           {| room := 20; taken := []; full := errorString "short write" |}).
  - reflexivity.
  - reflexivity.
  - reflexivity.
  - vm_compute. lia.
  - reflexivity.
Defined.

Lemma ErrorStream_missing_message_witness :
  let s := NewErrorStream
             {| wire := [Doc (JObject [("level", JString "warn")])];
                as_Closer := None |} in
  fst (ErrorStream.Next s) = true
  /\ ErrorStream.Event (snd (ErrorStream.Next s)) = {| Message := EmptyString |}
  /\ Err (snd (ErrorStream.Next s)) = None.
Proof.
  apply (@ErrorStream_missing_message [("level", JString "warn")] [] None).
  reflexivity.
Defined.

Lemma AuditStream_maps_fields_witness :
  let s := NewAuditStream
             {| wire := [Doc (audit_json "2024-01-01T00:00:00Z" "10.0.0.1"
                                "/v1/key/create" "abc123" "200" "15000000")];
                as_Closer := None |} in
  fst (AuditStream.Next s) = true
  /\ AuditStream.Event (snd (AuditStream.Next s))
     = {| Timestamp := {| year := 2024%Z; month := 1%Z; day := 1%Z;
                          hour := 0%Z; minute := 0%Z; second := 0%Z;
                          nanosecond := 0%Z; offset := 0%Z |};
          APIPath := "/v1/key/create";
          ClientIP := [x00; x00; x00; x00; x00; x00; x00; x00; x00; x00;
                       xff; xff; x0a; x00; x00; x01];
          ClientIdentity := "abc123";
          StatusCode := 200%Z;
          ResponseTime := 15000000%Z |}
  /\ Err (snd (AuditStream.Next s)) = None.
Proof.
  apply (@AuditStream_maps_fields "2024-01-01T00:00:00Z" "10.0.0.1"
           "/v1/key/create" "abc123" "200" "15000000");
    reflexivity.
Defined.

(** A status code that is no integer literal. *)
Lemma AuditStream_accepts_witness :
  let s := NewAuditStream
             {| wire := [Doc (audit_json "2024-01-01T00:00:00Z" "10.0.0.1"
                                "/v1/key/create" "abc123" "2e2" "15000000")];
                as_Closer := None |} in
  fst (AuditStream.Next s) = false
  /\ (fst (AuditStream.Next s) = false ->
      Err (snd (AuditStream.Next s)) <> None
      /\ AuditStream.Event (snd (AuditStream.Next s)) = AuditStream.zeroEvent).
Proof.
  refine (@AuditStream_accepts "2024-01-01T00:00:00Z" "10.0.0.1"
            "/v1/key/create" "abc123" "2e2" "15000000" _ _ [] None _ _);
    reflexivity.
Defined.
